(* Shallow embedding of RetirementCalculator.py (Monte Carlo retirement
   simulation) and proofs of its specified behaviour.

   Modelling conventions.
   - Python ints are Z.  A Python float is a binary64 double: [float] is a
     finite double (its exact value, a rational), an infinity or NaN, and
     [round64] rounds an exact rational to the nearest double, ties to even,
     overflowing to an infinity (IEEE 754 round-to-nearest; signed zeros are
     not distinguished).  Each float operation of the program is the exact
     operation followed by [round64]; `float(n)` on an int and `int(x)` on a
     float raise OverflowError as Python does.  The rates read from the data
     files (`round(x / 100, 5)`) are finite doubles, given by their exact
     values; `int(x)` on a finite float truncates toward zero ([trunc]).
   - Exceptions are an explicit error type [exn]; fallible code returns
     [res A].  `sys.exit(1)` is the error [SystemExit 1].
   - The random generator is passed in explicitly: trial number k consumes
     the sample [rng k], which carries the raw integer behind
     `random.randrange` and the value returned by `random.triangular`.
   - A Python str is its list of code points; the Unicode properties that
     `str.isdigit` and `int` consult are a [unicode_db] record, and the
     answers typed at the console are an explicit list. *)

From Stdlib Require Import ZArith QArith Qround Qpower Qcanon List Bool Lia Lqa.
From Stdlib Require Strings.String Strings.Ascii.
Import ListNotations String.StringSyntax.

Open Scope Z_scope.

(** * Python runtime fragment *)

Inductive exn : Type :=
| ValueError
| ZeroDivisionError
| IndexError
| OverflowError
| SystemExit (code : Z).

Inductive res (A : Type) : Type :=
| Ok (a : A)
| Err (e : exn).
Arguments Ok {A} a.
Arguments Err {A} e.

Definition bind {A B : Type} (m : res A) (f : A -> res B) : res B :=
  match m with
  | Ok a => f a
  | Err e => Err e
  end.

Notation "x <- m ;; k" := (bind m (fun x => k))
  (at level 61, m at next level, right associativity).

(** `int(x)` for a finite float x: truncation toward zero. *)
Definition trunc (q : Q) : Z := Z.quot (Qnum q) (Zpos (Qden q)).

(** Nearest integer, ties to even, of an exact value. *)
Definition round_half_even (q : Q) : Z :=
  let f := Qfloor q in
  match Qcompare (q - inject_Z f) (1 # 2) with
  | Lt => f
  | Gt => f + 1
  | Eq => if Z.even f then f else f + 1
  end.

(** ** Binary64 floats *)

Inductive float : Type :=
| Finite (x : Q)
| Infinite (neg : bool)
| NaN.

Definition pow2 (k : Z) : Q := Qpower (2 # 1) k.

(** floor(log2 a) for a > 0. *)
Definition qlog2 (a : Q) : Z :=
  let k := Z.log2 (Qnum a) - Z.log2 (Zpos (Qden a)) in
  if Qle_bool (pow2 k) a then k else k - 1.

(** The exponent of the last mantissa bit of a double near a > 0: 53 bits
    for normal numbers, a fixed exponent -1074 for subnormal ones. *)
Definition fexp (a : Q) : Z := Z.max (-1074) (qlog2 a - 52).

(** a > 0 rounded to that precision, ties to even (the exponent range is
    not bounded above here). *)
Definition round_value (a : Q) : Q :=
  inject_Z (round_half_even (a * pow2 (- fexp a))) * pow2 (fexp a).

(** A magnitude a > 0 with sign [neg]: infinity when its rounding reaches
    2^1024. *)
Definition round_pos (neg : bool) (a : Q) : float :=
  let x := round_value a in
  if Qle_bool (pow2 1024) x then Infinite neg
  else Finite (Qred (if neg then - x else x)).

(** The double nearest to an exact value. *)
Definition round64 (q : Q) : float :=
  match Qcompare q 0 with
  | Eq => Finite 0
  | Gt => round_pos false q
  | Lt => round_pos true (- q)
  end.

(** The value of a float literal: the double nearest the decimal. *)
Definition dbl (q : Q) : Q := match round64 q with Finite x => x | _ => 0%Q end.

(** `x + y` on finite floats. *)
Definition fadd (x y : Q) : float := round64 (x + y).

(** `x * f` for a finite float x. *)
Definition fmul (x : Q) (f : float) : float :=
  match f with
  | Finite y => round64 (x * y)
  | Infinite neg =>
      if Qeq_bool x 0 then NaN else Infinite (xorb neg (negb (Qle_bool 0 x)))
  | NaN => NaN
  end.

(** `float(n)` for an int n ("int too large to convert to float"). *)
Definition py_float (n : Z) : res Q :=
  match round64 (inject_Z n) with
  | Finite x => Ok x
  | _ => Err OverflowError
  end.

(** `int(f)` for a float f. *)
Definition py_int_float (f : float) : res Z :=
  match f with
  | Finite x => Ok (trunc x)
  | Infinite _ => Err OverflowError
  | NaN => Err ValueError
  end.

(** `int(n * (1 + r))` for an int n and a float r (lines 146 and 150):
    `1 + r` is a float sum, and the product converts n with `float(n)`. *)
Definition int_mul_1p (n : Z) (r : Q) : res Z :=
  let f := fadd 1 r in
  x <- py_float n ;;
  py_int_float (fmul x f).

(** `a / b` on ints: the double nearest the exact quotient ("integer
    division result too large for a float" when it overflows). *)
Definition py_truediv (a b : Z) : res Q :=
  if b =? 0 then Err ZeroDivisionError
  else match round64 (inject_Z a / inject_Z b) with
       | Finite x => Ok x
       | _ => Err OverflowError
       end.

(** `round(x, 1)` for a finite float x: x * 10 (exactly) rounded half to
    even, then the double nearest that number of tenths. *)
Definition py_round1 (x : Q) : res Q :=
  match round64 (inject_Z (round_half_even (x * 10)) / 10) with
  | Finite y => Ok y
  | _ => Err OverflowError
  end.

(** `a % b` on ints. *)
Definition py_mod (a b : Z) : res Z :=
  if b =? 0 then Err ZeroDivisionError else Ok (Z.modulo a b).

(** `l[i]`, with Python's negative indices. *)
Definition py_getitem {A : Type} (l : list A) (i : Z) : res A :=
  let n := Z.of_nat (length l) in
  let j := if i <? 0 then i + n else i in
  if (j <? 0) || (n <=? j) then Err IndexError
  else match nth_error l (Z.to_nat j) with
       | Some x => Ok x
       | None => Err IndexError
       end.

(** `list(range(a, b))`. *)
Definition py_range (a b : Z) : list Z :=
  map (fun k => a + Z.of_nat k) (seq 0 (Z.to_nat (b - a))).

(** `random.randrange(0, n)`: ValueError on an empty range, otherwise some
    value of [0, n), here the raw random integer [u] reduced into it. *)
Definition randrange0 (n u : Z) : res Z :=
  if n <=? 0 then Err ValueError else Ok (Z.modulo u n).

(** * The program *)

(** The user parameters after `int(...)` of the digit strings. *)
Record params : Type := mkParams {
  start_value : Z;
  withdrawal : Z;
  min_years : Z;
  most_likely_years : Z;
  max_years : Z;
  num_cases : Z
}.

(** Lines 100-104: the check on the input years.  [true] means the run goes
    on; [false] means `sys.exit(1)`. *)
Definition years_ok (p : params) : bool :=
  negb (negb ((min_years p <? most_likely_years p)
              && (most_likely_years p <? max_years p))
        || (max_years p >? 99)).

(** The random draws consumed by one trial. *)
Record sample : Type := mkSample {
  raw_start : Z;        (* behind random.randrange(0, len(returns)) *)
  triangular_draw : Q   (* random.triangular(min, max, most_likely) *)
}.

(** Line 120: `duration = int(random.triangular(...))`. *)
Definition duration_of (s : sample) : Z := trunc (triangular_draw s).

(** Lines 128-134: the per-trial return and inflation lists. *)
Fixpoint build_lists (returns infl_rate : list Q) (lifespan : list Z)
    (lr li : list Q) : res (list Q * list Q) :=
  match lifespan with
  | [] => Ok (lr, li)
  | i :: rest =>
      k <- py_mod i (Z.of_nat (length returns)) ;;
      r <- py_getitem returns k ;;
      k' <- py_mod i (Z.of_nat (length infl_rate)) ;;
      f <- py_getitem infl_rate k' ;;
      build_lists returns infl_rate rest (lr ++ [r]) (li ++ [f])
  end.

(** Lines 141-146: the withdrawal of the year at position [index]. *)
Definition next_withdrawal (withdrawal : Z) (index : nat) (withdraw_inf_adj : Z)
    (infl : Q) : res Z :=
  if Nat.eqb index 0 then Ok withdrawal
  else int_mul_1p withdraw_inf_adj infl.

(** Lines 137-154: the year loop over `enumerate(lifespan_returns)`.
    Returns the final `investments` and whether `bankrupt == 'yes'`. *)
Fixpoint year_loop (withdrawal : Z) (lifespan_infl : list Q) (index : nat)
    (withdraw_inf_adj investments : Z) (lifespan_returns : list Q)
    : res (Z * bool) :=
  match lifespan_returns with
  | [] => Ok (investments, false)
  | i :: rest =>
      infl <- py_getitem lifespan_infl (Z.of_nat index) ;;
      w <- next_withdrawal withdrawal index withdraw_inf_adj infl ;;
      let inv1 := investments - w in
      inv2 <- int_mul_1p inv1 i ;;
      if inv2 <=? 0 then Ok (inv2, true)
      else year_loop withdrawal lifespan_infl (S index) w inv2 rest
  end.

(** Lines 116-154: one trial. *)
Definition run_case (p : params) (returns infl_rate : list Q) (s : sample)
    : res (Z * bool) :=
  start_year <- randrange0 (Z.of_nat (length returns)) (raw_start s) ;;
  let duration := duration_of s in
  let end_year := start_year + duration in
  let lifespan := py_range start_year end_year in
  lists <- build_lists returns infl_rate lifespan [] [] ;;
  year_loop (withdrawal p) (snd lists) 0 0 (start_value p) (fst lists).

(** Lines 156-162: the outcome recorded for a trial. *)
Definition recorded (r : Z * bool) : Z := if snd r then 0 else fst r.

(** Lines 114-166: the trial loop, `case_count` counting up. *)
Fixpoint mc_loop (p : params) (returns infl_rate : list Q)
    (rng : nat -> sample) (fuel case_count : nat)
    (outcome : list Z) (bankrupt_count : Z) : res (list Z * Z) :=
  match fuel with
  | O => Ok (outcome, bankrupt_count)
  | S fuel' =>
      r <- run_case p returns infl_rate (rng case_count) ;;
      if snd r
      then mc_loop p returns infl_rate rng fuel' (S case_count)
             (outcome ++ [0]) (bankrupt_count + 1)
      else mc_loop p returns infl_rate rng fuel' (S case_count)
             (outcome ++ [fst r]) bankrupt_count
  end.

(** `while case_count < int(num_cases)` runs max(0, num_cases) times. *)
Definition montecarlo (p : params) (returns infl_rate : list Q)
    (rng : nat -> sample) : res (list Z * Z) :=
  mc_loop p returns infl_rate rng (Z.to_nat (num_cases p)) 0 [] 0.

(** The figures `bankrupt_prob` reports (lines 169-186): the returned odds
    and the printed average, minimum and maximum outcome. *)
Record report : Type := mkReport {
  odds : Q;
  average_outcome : Z;
  minimum_outcome : Z;
  maximum_outcome : Z
}.

Definition sum_Z (l : list Z) : Z := fold_right Z.add 0 l.

(** Python's `min`/`max` on a list: ValueError when it is empty. *)
Definition py_min (l : list Z) : res Z :=
  match l with [] => Err ValueError | x :: xs => Ok (fold_left Z.min xs x) end.
Definition py_max (l : list Z) : res Z :=
  match l with [] => Err ValueError | x :: xs => Ok (fold_left Z.max xs x) end.

Definition bankrupt_prob (outcome : list Z) (bankrupt_count : Z) : res report :=
  let total := Z.of_nat (length outcome) in
  q <- py_truediv (100 * bankrupt_count) total ;;
  o <- py_round1 q ;;
  avg <- py_truediv (sum_Z outcome) total ;;
  mn <- py_min outcome ;;
  mx <- py_max outcome ;;
  Ok (mkReport o (trunc avg) mn mx).

(** `main` after the module-level input check: [SystemExit 1] when the
    years are rejected, otherwise the report. *)
Definition program (p : params) (returns infl_rate : list Q)
    (rng : nat -> sample) : res report :=
  if negb (years_ok p) then Err (SystemExit 1)
  else
    mc <- montecarlo p returns infl_rate rng ;;
    bankrupt_prob (fst mc) (snd mc).

(** * Recurrence of the solvency simulator in the words of the spec (4.2) *)

(** The spec's `round_to_integer(x * (1 + rate))` is a parameter [mul] of
    the recurrence. *)
Section Recurrence.

Variable mul : Z -> Q -> res Z.

(** One line per processed year: the applied withdrawal, the balance after
    the withdrawal and the balance after growth; processing stops after the
    first balance <= 0. *)
Fixpoint spec_trace (w_prev balance : Z) (first : bool) (years : list (Q * Q))
    : res (list (Z * Z * Z)) :=
  match years with
  | [] => Ok []
  | (ret, infl) :: rest =>
      w <- (if first then Ok w_prev else mul w_prev infl) ;;
      let b1 := balance - w in
      b2 <- mul b1 ret ;;
      if b2 <=? 0 then Ok [(w, b1, b2)]
      else t <- spec_trace w b2 false rest ;; Ok ((w, b1, b2) :: t)
  end.

(** Terminal value and insolvency flag. *)
Fixpoint spec_result (w_prev balance : Z) (first : bool) (years : list (Q * Q))
    : res (Z * bool) :=
  match years with
  | [] => Ok (balance, false)
  | (ret, infl) :: rest =>
      w <- (if first then Ok w_prev else mul w_prev infl) ;;
      b2 <- mul (balance - w) ret ;;
      if b2 <=? 0 then Ok (0, true) else spec_result w b2 false rest
  end.

Definition spec_solvency (V0 W0 : Z) (years : list (Q * Q)) : res (Z * bool) :=
  spec_result W0 V0 true years.

End Recurrence.

(** The product of the spec in exact arithmetic. *)
Definition exact_mul (n : Z) (r : Q) : res Z := Ok (trunc (inject_Z n * (1 + r))).

Definition example_params : params := mkParams 2000000 80000 18 25 40 50000.

(** `l[i % len(l)]` on a non-empty list. *)
Definition wrap_item (l : list Q) (i : Z) : Q :=
  nth (Z.to_nat (Z.modulo i (Z.of_nat (length l)))) l 0%Q.

(** Counting insolvent trials and zero outcomes. *)
Definition count_insolvent (results : list (Z * bool)) : Z :=
  Z.of_nat (length (filter snd results)).

Definition count_zeros (outcome : list Z) : Z :=
  Z.of_nat (length (filter (fun x => x =? 0) outcome)).

(** * Console input *)

Delimit Scope string_scope with string.

(** A Python [str], as its list of code points. *)
Definition str := list Z.

Definition py_str (s : String.string) : str :=
  map (fun a => Z.of_nat (Ascii.nat_of_ascii a)) (String.list_ascii_of_string s).

(** The Unicode character properties behind `str.isdigit`, `str.isspace`
    and `int`: the decimal value of a character of Numeric_Type=Decimal
    (`unicodedata.decimal`), the characters of Numeric_Type Digit or
    Decimal (`str.isdigit`), and white space (`str.isspace`). *)
Record unicode_db := mkUnicodeDb {
  decimal_value : Z -> option Z;
  is_digit_char : Z -> bool;
  is_space_char : Z -> bool
}.

(** Those tables on the Latin-1 range (code points below 256). *)
Definition latin1_db : unicode_db := mkUnicodeDb
  (fun c => if (48 <=? c) && (c <=? 57) then Some (c - 48) else None)
  (fun c => ((48 <=? c) && (c <=? 57)) || existsb (Z.eqb c) [178; 179; 185])
  (fun c => existsb (Z.eqb c) [9; 10; 11; 12; 13; 28; 29; 30; 31; 32; 133; 160]).

(** `s.isdigit()` *)
Definition py_isdigit (u : unicode_db) (s : str) : bool :=
  match s with
  | [] => false
  | _ => forallb (is_digit_char u) s
  end.

(** `default_input(prompt, default)` once `input(prompt)` has returned
    [response]; [None] is `default=None`. *)
Definition default_input (default : option str) (response : str) : str :=
  match response, default with
  | [], Some ((_ :: _) as d) => d
  | _, _ => response
  end.

(** `while not x.isdigit(): x = input(...)`, with [later] the answers the
    user types next; running out of them (EOFError) is [None]. *)
Fixpoint digit_loop (u : unicode_db) (x : str) (later : list str) : option str :=
  if py_isdigit u x then Some x
  else match later with
       | [] => None
       | y :: ys => digit_loop u y ys
       end.

(** `int(s)` in base 10: surrounding white space is stripped, an optional
    sign is read, then decimal digits with single underscores between them.
    [max_str_digits] is the limit of `sys.get_int_max_str_digits()` (4300
    by default since Python 3.11, 0 for no limit): a number with more digits
    raises ValueError. *)
Fixpoint drop_spaces (u : unicode_db) (s : str) : str :=
  match s with
  | [] => []
  | c :: r => if is_space_char u c then drop_spaces u r else s
  end.

Definition py_strip (u : unicode_db) (s : str) : str :=
  rev (drop_spaces u (rev (drop_spaces u s))).

Fixpoint parse_digits (u : unicode_db) (acc : Z) (after_sep : bool) (s : str)
    : option Z :=
  match s with
  | [] => if after_sep then None else Some acc
  | c :: r =>
      match decimal_value u c with
      | Some d => parse_digits u (acc * 10 + d) false r
      | None =>
          if (c =? 95) && negb after_sep then parse_digits u acc true r
          else None
      end
  end.

(** The number of digits of a numeral (its underscores apart). *)
Definition count_digits (u : unicode_db) (s : str) : Z :=
  Z.of_nat (length (filter (fun c => match decimal_value u c with
                                     | Some _ => true
                                     | None => false
                                     end) s)).

Definition py_int (u : unicode_db) (max_str_digits : Z) (s : str) : res Z :=
  let t := py_strip u s in
  let '(neg, body) :=
    match t with
    | c :: r => if c =? 45 then (true, r) else if c =? 43 then (false, r) else (false, t)
    | [] => (false, t)
    end in
  match parse_digits u 0 true body with
  | Some v =>
      if (0 <? max_str_digits) && (max_str_digits <? count_digits u body)
      then Err ValueError
      else Ok (if neg then - v else v)
  | None => Err ValueError
  end.

(** `investment_type_args` and the dict operations used on it: `k in d` and
    `d[k]` ([None] is the KeyError). *)
Definition investment_type_args (bonds stocks blend_50_50 blend_40_50_10 : list Q)
    : list (str * list Q) :=
  [(py_str "bonds"%string, bonds); (py_str "stocks"%string, stocks);
   (py_str "sb_blend"%string, blend_50_50); (py_str "sbc_blend"%string, blend_40_50_10)].

Definition str_eqb (a b : str) : bool :=
  if list_eq_dec Z.eq_dec a b then true else false.

Definition dict_mem {V : Type} (d : list (str * V)) (k : str) : bool :=
  existsb (fun kv => str_eqb (fst kv) k) d.

Definition dict_get {V : Type} (d : list (str * V)) (k : str) : option V :=
  option_map snd (find (fun kv => str_eqb (fst kv) k) d).

(** `while invest_type not in investment_type_args: invest_type = input(...)` *)
Fixpoint type_loop {V : Type} (d : list (str * V)) (x : str) (later : list str)
    : option str :=
  if dict_mem d x then Some x
  else match later with
       | [] => None
       | y :: ys => type_loop d y ys
       end.

(** The number a string of decimal characters denotes. *)
Definition decimal_number (u : unicode_db) (s : str) : Z :=
  fold_left (fun acc c => acc * 10 + match decimal_value u c with
                                     | Some d => d
                                     | None => 0
                                     end) s 0.

(** * Sanity checks *)

Example trunc_neg : trunc (-(7 # 2)) = -3. Proof. reflexivity. Qed.
Example dbl_tenth : dbl (1 # 10) = 3602879701896397 # 36028797018963968.
Proof. vm_compute. reflexivity. Qed.
Example run_example :
  year_loop 80000 [0%Q] 0 0 2000000 [dbl (1 # 10)] = Ok (2112000, false).
Proof. vm_compute. reflexivity. Qed.
Example round_example : py_round1 (1 # 8) = Ok (dbl (1 # 10)).
Proof. vm_compute. reflexivity. Qed.

(** * Arithmetic of [trunc] *)

Lemma trunc_spec (x : Q) :
  Qnum x = Zpos (Qden x) * trunc x + Z.rem (Qnum x) (Zpos (Qden x)) /\
  Z.abs (Z.rem (Qnum x) (Zpos (Qden x))) < Zpos (Qden x).
Proof.
  unfold trunc. split.
  - apply Z.quot_rem. lia.
  - pose proof (Z.rem_bound_abs (Qnum x) (Zpos (Qden x))) as H. lia.
Qed.

Lemma trunc_lower (lo : Z) (x : Q) : (inject_Z lo <= x)%Q -> lo <= trunc x.
Proof.
  unfold Qle, inject_Z; simpl. intros H.
  destruct (trunc_spec x) as [E B].
  destruct (Z_lt_le_dec (trunc x) lo) as [Hlt | Hge]; [| exact Hge].
  exfalso. set (d := Zpos (Qden x)) in *. set (t := trunc x) in *.
  set (r := Z.rem (Qnum x) d) in *.
  assert (d * t <= d * (lo - 1)) by (apply Z.mul_le_mono_nonneg_l; lia).
  lia.
Qed.

Lemma trunc_upper (hi : Z) (x : Q) : (x <= inject_Z hi)%Q -> trunc x <= hi.
Proof.
  unfold Qle, inject_Z; simpl. intros H.
  destruct (trunc_spec x) as [E B].
  destruct (Z_le_gt_dec (trunc x) hi) as [Hle | Hgt]; [exact Hle |].
  exfalso. set (d := Zpos (Qden x)) in *. set (t := trunc x) in *.
  set (r := Z.rem (Qnum x) d) in *.
  assert (d * (hi + 1) <= d * t) by (apply Z.mul_le_mono_nonneg_l; lia).
  lia.
Qed.


Lemma trunc_le_pos (x : Q) : 0 < trunc x -> (inject_Z (trunc x) <= x)%Q.
Proof.
  intros Ht. destruct (trunc_spec x) as [E B].
  assert (Hn : 0 < Qnum x).
  { destruct (Z_lt_le_dec 0 (Qnum x)) as [H | H]; [exact H | exfalso].
    assert (trunc x <= 0); [apply trunc_upper; unfold Qle; simpl; lia | lia]. }
  pose proof (Z.rem_nonneg (Qnum x) (Zpos (Qden x)) ltac:(lia) ltac:(lia)).
  unfold Qle, inject_Z; simpl. lia.
Qed.

Lemma trunc_ge_neg (y : Q) : (y < 0)%Q -> (y <= inject_Z (trunc y))%Q.
Proof.
  intros Hy. unfold Qlt in Hy; simpl in Hy.
  destruct (trunc_spec y) as [E B].
  pose proof (Z.rem_nonpos (Qnum y) (Zpos (Qden y)) ltac:(lia) ltac:(lia)).
  unfold Qle, inject_Z; simpl. lia.
Qed.

(** `int(x)` on floats is monotone. *)
Lemma trunc_mono (x y : Q) : (x <= y)%Q -> trunc x <= trunc y.
Proof.
  intros Hxy.
  destruct (Z_lt_le_dec 0 (trunc x)) as [Hp | Hnp].
  - apply trunc_lower. eapply Qle_trans; [apply trunc_le_pos; exact Hp | exact Hxy].
  - destruct (Qlt_le_dec y 0) as [Hy | Hy].
    + apply trunc_upper. eapply Qle_trans; [exact Hxy | apply trunc_ge_neg; exact Hy].
    + assert (0 <= trunc y) by (apply trunc_lower; exact Hy). lia.
Qed.


Lemma trunc_comp (x y : Q) : (x == y)%Q -> trunc x = trunc y.
Proof.
  intros H. apply Z.le_antisymm; apply trunc_mono; rewrite H; apply Qle_refl.
Qed.

Lemma trunc_inject_Z (n : Z) : trunc (inject_Z n) = n.
Proof. unfold trunc. simpl. apply Z.quot_1_r. Qed.

(** * Binary64 rounding *)

Section Binary64.

Open Scope Q_scope.

Lemma pow2_pos (k : Z) : 0 < pow2 k.
Proof. apply Qpower_0_lt. reflexivity. Qed.

Lemma pow2_add (a b : Z) : pow2 (a + b) == pow2 a * pow2 b.
Proof. unfold pow2. apply Qpower_plus. discriminate. Qed.

Lemma pow2_le (a b : Z) : (a <= b)%Z -> pow2 a <= pow2 b.
Proof. intros H. apply Qpower_le_compat_l; [exact H | discriminate]. Qed.

Lemma pow2_lt (a b : Z) : (a < b)%Z -> pow2 a < pow2 b.
Proof. intros H. apply Qpower_lt_compat_l; [exact H | reflexivity]. Qed.

Lemma pow2_le_inv (a b : Z) : pow2 a <= pow2 b -> (a <= b)%Z.
Proof. intros H. apply (Qpower_le_compat_l_inv (2 # 1)); [exact H | reflexivity]. Qed.

Lemma pow2_lt_inv (a b : Z) : pow2 a < pow2 b -> (a < b)%Z.
Proof. intros H. apply (Qpower_lt_compat_l_inv (2 # 1)); [exact H | reflexivity]. Qed.

Lemma pow2_Z (k : Z) : (0 <= k)%Z -> pow2 k == inject_Z (2 ^ k).
Proof. intros H. unfold pow2. rewrite Zpower_Qpower by exact H. reflexivity. Qed.

Lemma pow2_opp (k : Z) : pow2 (- k) == / pow2 k.
Proof. unfold pow2. apply Qpower_opp. Qed.

Lemma pow2_inv_mul (k : Z) : pow2 k * pow2 (- k) == 1.
Proof. rewrite <- pow2_add. replace (k + - k)%Z with 0%Z by lia. reflexivity. Qed.

Lemma qdiv_Z (x y : Z) : (0 < y)%Z -> inject_Z x * / inject_Z y == x # Z.to_pos y.
Proof.
  intros Hy. destruct y as [|p|p]; try lia.
  unfold Qeq, Qmult, Qinv, inject_Z; simpl. lia.
Qed.

(** floor(log2 a) *)
Lemma qlog2_spec (a : Q) : 0 < a -> pow2 (qlog2 a) <= a < pow2 (qlog2 a + 1).
Proof.
  intros Ha. destruct a as [n d].
  assert (Hn : (0 < n)%Z) by (unfold Qlt in Ha; simpl in Ha; lia).
  unfold qlog2. cbn [Qnum Qden].
  set (ln := Z.log2 n). set (ld := Z.log2 (Z.pos d)).
  destruct (Z.log2_spec n Hn) as [N1 N2].
  destruct (Z.log2_spec (Z.pos d) ltac:(lia)) as [D1 D2]. fold ln ld in N1, N2, D1, D2.
  assert (Hln : (0 <= ln)%Z) by apply Z.log2_nonneg.
  assert (Hld : (0 <= ld)%Z) by apply Z.log2_nonneg.
  assert (E1 : forall x y, (0 <= x)%Z -> (0 <= y)%Z ->
               pow2 (x - y) == (2 ^ x) # Z.to_pos (2 ^ y)).
  { intros x y Hx Hy. replace (x - y)%Z with (x + - y)%Z by lia.
    rewrite pow2_add, pow2_opp, !pow2_Z by lia. apply qdiv_Z. apply Z.pow_pos_nonneg; lia. }
  assert (Hlo : pow2 (ln - ld - 1) <= n # d).
  { replace (ln - ld - 1)%Z with (ln - (ld + 1))%Z by lia.
    rewrite E1 by lia. unfold Qle; cbn [Qnum Qden].
    rewrite Z2Pos.id by (apply Z.pow_pos_nonneg; lia).
    assert (0 <= 2 ^ ln)%Z by (apply Z.pow_nonneg; lia). nia. }
  assert (Hhi : n # d < pow2 (ln - ld + 1)).
  { replace (ln - ld + 1)%Z with ((ln + 1) - ld)%Z by lia.
    rewrite E1 by lia. unfold Qlt; cbn [Qnum Qden].
    rewrite Z2Pos.id by (apply Z.pow_pos_nonneg; lia).
    rewrite Z.pow_succ_r in N2 by lia.
    replace (2 ^ (ln + 1))%Z with (2 * 2 ^ ln)%Z by (rewrite Z.pow_add_r by lia; lia).
    assert (0 <= 2 ^ ld)%Z by (apply Z.pow_nonneg; lia). nia. }
  destruct (Qle_bool (pow2 (ln - ld)) (n # d)) eqn:E.
  - apply Qle_bool_iff in E. split; [exact E | exact Hhi].
  - split; [exact Hlo |]. replace (ln - ld - 1 + 1)%Z with (ln - ld)%Z by lia.
    apply Qnot_le_lt. intros C. apply Qle_bool_iff in C. congruence.
Qed.

Lemma qlog2_unique (a : Q) (k : Z) : pow2 k <= a < pow2 (k + 1) -> qlog2 a = k.
Proof.
  intros [H1 H2].
  assert (Ha : 0 < a) by (eapply Qlt_le_trans; [apply pow2_pos | exact H1]).
  destruct (qlog2_spec a Ha) as [L1 L2].
  assert (qlog2 a < k + 1)%Z by (apply pow2_lt_inv; eapply Qle_lt_trans; eauto).
  assert (k < qlog2 a + 1)%Z by (apply pow2_lt_inv; eapply Qle_lt_trans; eauto).
  lia.
Qed.

Lemma qlog2_mono (a b : Q) : 0 < a -> a <= b -> (qlog2 a <= qlog2 b)%Z.
Proof.
  intros Ha Hab. destruct (qlog2_spec a Ha) as [A1 A2].
  destruct (qlog2_spec b (Qlt_le_trans _ _ _ Ha Hab)) as [B1 B2].
  assert (qlog2 a < qlog2 b + 1)%Z.
  { apply pow2_lt_inv. eapply Qle_lt_trans; [exact A1 |]. eapply Qle_lt_trans; eauto. }
  lia.
Qed.

Lemma fexp_spec (a : Q) :
  0 < a -> a < pow2 (fexp a + 53) /\ (fexp a = (-1074)%Z \/ pow2 (fexp a + 52) <= a).
Proof.
  intros Ha. destruct (qlog2_spec a Ha) as [L1 L2]. unfold fexp. split.
  - eapply Qlt_le_trans; [exact L2 | apply pow2_le; lia].
  - destruct (Z.max_spec (-1074) (qlog2 a - 52)) as [[_ ->] | [_ ->]]; [right | left; reflexivity].
    replace (qlog2 a - 52 + 52)%Z with (qlog2 a) by lia. exact L1.
Qed.

Lemma fexp_mono (a b : Q) : 0 < a -> a <= b -> (fexp a <= fexp b)%Z.
Proof. intros Ha Hab. unfold fexp. pose proof (qlog2_mono a b Ha Hab). lia. Qed.

Lemma fexp_min (a : Q) : (-1074 <= fexp a)%Z.
Proof. unfold fexp. lia. Qed.


Lemma round_half_even_bounds (x : Q) :
  (x - (1 # 2) <= inject_Z (round_half_even x) <= x + (1 # 2))%Q.
Proof.
  unfold round_half_even.
  pose proof (Qfloor_le x) as H1. pose proof (Qlt_floor x) as H2.
  rewrite inject_Z_plus in H2. change (inject_Z 1) with 1%Q in H2.
  destruct (Qcompare_spec (x - inject_Z (Qfloor x)) (1 # 2)) as [E | E | E];
    [destruct (Z.even (Qfloor x)) | |];
    rewrite ?inject_Z_plus; change (inject_Z 1) with 1%Q; lra.
Qed.

Lemma rhe_int (n : Z) : round_half_even (inject_Z n) = n.
Proof.
  unfold round_half_even. rewrite Qfloor_Z.
  destruct (Qcompare_spec (inject_Z n - inject_Z n) (1 # 2)) as [E | E | E];
    [exfalso | reflexivity | exfalso]; lra.
Qed.

Lemma rhe_comp (q q' : Q) : q == q' -> round_half_even q = round_half_even q'.
Proof.
  intros H. unfold round_half_even.
  assert (F : Qfloor q = Qfloor q').
  { apply Z.le_antisymm; apply Qfloor_resp_le; rewrite H; apply Qle_refl. }
  rewrite F, H. reflexivity.
Qed.

Lemma Zle_Q (a b : Z) : (a <= b)%Z <-> inject_Z a <= inject_Z b.
Proof. unfold Qle, inject_Z; simpl. lia. Qed.

Lemma Zlt_Q (a b : Z) : (a < b)%Z <-> inject_Z a < inject_Z b.
Proof. unfold Qlt, inject_Z; simpl. lia. Qed.

Lemma rhe_mono (q q' : Q) : q <= q' -> (round_half_even q <= round_half_even q')%Z.
Proof.
  intros H. destruct (Qeq_dec q q') as [E | NE]; [rewrite (rhe_comp q q' E); lia |].
  assert (Hlt : q < q') by (apply Qle_lt_or_eq in H as [H | H]; [exact H | contradiction]).
  destruct (Z_le_gt_dec (round_half_even q) (round_half_even q')) as [Hle | Hgt]; [exact Hle |].
  exfalso. assert (Hq : inject_Z (round_half_even q' + 1) <= inject_Z (round_half_even q))
    by (apply (proj1 (Zle_Q _ _)); lia).
  rewrite inject_Z_plus in Hq. change (inject_Z 1) with 1 in Hq.
  destruct (round_half_even_bounds q) as [B1 B2].
  destruct (round_half_even_bounds q') as [B3 B4]. lra.
Qed.

Lemma qlog2_comp (a b : Q) : 0 < a -> a == b -> qlog2 a = qlog2 b.
Proof.
  intros Ha H. symmetry. apply qlog2_unique. rewrite <- H. apply qlog2_spec, Ha.
Qed.

Lemma fexp_comp (a b : Q) : 0 < a -> a == b -> fexp a = fexp b.
Proof. intros Ha H. unfold fexp. rewrite (qlog2_comp a b Ha H). reflexivity. Qed.

Lemma round_value_comp (a b : Q) : 0 < a -> a == b -> round_value a == round_value b.
Proof.
  intros Ha H. unfold round_value. rewrite (fexp_comp a b Ha H).
  rewrite (rhe_comp (a * pow2 (- fexp b)) (b * pow2 (- fexp b))) by (rewrite H; reflexivity).
  reflexivity.
Qed.

(** The mantissa of the rounded value. *)
Lemma round_mant_bounds (a : Q) :
  0 < a ->
  (0 <= round_half_even (a * pow2 (- fexp a)) <= 2 ^ 53)%Z /\
  (fexp a = (-1074)%Z \/ (2 ^ 52 <= round_half_even (a * pow2 (- fexp a)))%Z).
Proof.
  intros Ha. destruct (fexp_spec a Ha) as [Hup Hlo].
  set (e := fexp a) in *.
  assert (Hp : 0 < pow2 (- e)) by apply pow2_pos.
  split; [split |].
  - rewrite <- (rhe_int 0). apply rhe_mono.
    apply Qlt_le_weak. apply Qmult_lt_0_compat; assumption.
  - rewrite <- (rhe_int (2 ^ 53)). apply rhe_mono.
    apply Qlt_le_weak. rewrite <- pow2_Z by lia.
    assert (X : pow2 53 == pow2 (e + 53) * pow2 (- e)).
    { rewrite <- pow2_add. replace (e + 53 + - e)%Z with 53%Z by lia. reflexivity. }
    rewrite X. apply Qmult_lt_r; assumption.
  - destruct Hlo as [Hlo | Hlo]; [left; exact Hlo | right].
    rewrite <- (rhe_int (2 ^ 52)). apply rhe_mono. rewrite <- pow2_Z by lia.
    assert (X : pow2 52 == pow2 (e + 52) * pow2 (- e)).
    { rewrite <- pow2_add. replace (e + 52 + - e)%Z with 52%Z by lia. reflexivity. }
    rewrite X.
    apply Qmult_le_compat_r; [exact Hlo | apply Qlt_le_weak, Hp].
Qed.

Lemma round_value_nonneg (a : Q) : 0 < a -> 0 <= round_value a.
Proof.
  intros Ha. unfold round_value. destruct (round_mant_bounds a Ha) as [[M0 _] _].
  apply Qmult_le_0_compat; [| apply Qlt_le_weak, pow2_pos].
  change 0 with (inject_Z 0). apply (proj1 (Zle_Q _ _)). exact M0.
Qed.

Lemma round_value_upper (a : Q) : 0 < a -> round_value a <= pow2 (fexp a + 53).
Proof.
  intros Ha. unfold round_value. destruct (round_mant_bounds a Ha) as [[_ M1] _].
  assert (X : pow2 (fexp a + 53) == inject_Z (2 ^ 53) * pow2 (fexp a)).
  { rewrite Z.add_comm, pow2_add, pow2_Z by lia. reflexivity. }
  rewrite X. apply Qmult_le_compat_r.
  - apply (proj1 (Zle_Q _ _)). exact M1.
  - apply Qlt_le_weak, pow2_pos.
Qed.

Lemma round_value_lower (a : Q) :
  0 < a -> fexp a = (-1074)%Z \/ pow2 (fexp a + 52) <= round_value a.
Proof.
  intros Ha. unfold round_value. destruct (round_mant_bounds a Ha) as [_ [M | M]];
    [left; exact M | right].
  assert (X : pow2 (fexp a + 52) == inject_Z (2 ^ 52) * pow2 (fexp a)).
  { rewrite Z.add_comm, pow2_add, pow2_Z by lia. reflexivity. }
  rewrite X. apply Qmult_le_compat_r.
  - apply (proj1 (Zle_Q _ _)). exact M.
  - apply Qlt_le_weak, pow2_pos.
Qed.

Lemma round_value_mono (a b : Q) : 0 < a -> a <= b -> round_value a <= round_value b.
Proof.
  intros Ha Hab. assert (Hb : 0 < b) by (eapply Qlt_le_trans; eauto).
  pose proof (fexp_mono a b Ha Hab) as Hf.
  destruct (Z.eq_dec (fexp a) (fexp b)) as [E | NE].
  - unfold round_value. rewrite E. apply Qmult_le_compat_r; [| apply Qlt_le_weak, pow2_pos].
    apply (proj1 (Zle_Q _ _)). apply rhe_mono. apply Qmult_le_compat_r; [exact Hab | apply Qlt_le_weak, pow2_pos].
  - eapply Qle_trans; [apply round_value_upper, Ha |].
    destruct (round_value_lower b Hb) as [L | L]; [pose proof (fexp_min a); lia |].
    eapply Qle_trans; [| exact L]. apply pow2_le. lia.
Qed.

Lemma round_value_error (a : Q) :
  0 < a -> a - pow2 (fexp a - 1) <= round_value a <= a + pow2 (fexp a - 1).
Proof.
  intros Ha. unfold round_value. set (e := fexp a).
  pose proof (round_half_even_bounds (a * pow2 (- e))) as [B1 B2].
  set (m := inject_Z (round_half_even (a * pow2 (- e)))) in *.
  assert (Hp : 0 < pow2 e) by apply pow2_pos.
  assert (E1 : pow2 (e - 1) == pow2 e * (1 # 2)).
  { replace (e - 1)%Z with (e + -1)%Z by lia. rewrite pow2_add. reflexivity. }
  assert (E2 : a * pow2 (- e) * pow2 e == a).
  { rewrite <- Qmult_assoc, (Qmult_comm (pow2 (- e))), pow2_inv_mul. ring. }
  rewrite E1. split.
  - apply (Qmult_le_compat_r _ _ (pow2 e)) in B1; [| apply Qlt_le_weak, Hp].
    setoid_replace ((a * pow2 (- e) - (1 # 2)) * pow2 e)
      with (a * pow2 (- e) * pow2 e - pow2 e * (1 # 2)) in B1 by ring.
    rewrite E2 in B1.
    exact B1.
  - apply (Qmult_le_compat_r _ _ (pow2 e)) in B2; [| apply Qlt_le_weak, Hp].
    setoid_replace ((a * pow2 (- e) + (1 # 2)) * pow2 e)
      with (a * pow2 (- e) * pow2 e + pow2 e * (1 # 2)) in B2 by ring.
    rewrite E2 in B2.
    exact B2.
Qed.

Lemma round_value_exact (a : Q) (k : Z) :
  0 < a -> a * pow2 (- fexp a) == inject_Z k -> round_value a == a.
Proof.
  intros Ha H. unfold round_value. rewrite (rhe_comp _ _ H), rhe_int, <- H.
  rewrite <- Qmult_assoc, (Qmult_comm (pow2 (- fexp a))), pow2_inv_mul. ring.
Qed.

Lemma round_value_pow2 (j : Z) : (-1074 <= j)%Z -> round_value (pow2 j) == pow2 j.
Proof.
  intros Hj.
  assert (Hl : qlog2 (pow2 j) = j).
  { apply qlog2_unique. split; [apply Qle_refl | apply pow2_lt; lia]. }
  assert (He : (fexp (pow2 j) <= j)%Z) by (unfold fexp; rewrite Hl; lia).
  apply (round_value_exact _ (2 ^ (j - fexp (pow2 j)))); [apply pow2_pos |].
  rewrite <- pow2_add, <- pow2_Z by lia.
  replace (j + - fexp (pow2 j))%Z with (j - fexp (pow2 j))%Z by lia. apply Qeq_refl.
Qed.

Lemma round_value_int (n : Z) : (0 < n <= 2 ^ 53)%Z -> round_value (inject_Z n) == inject_Z n.
Proof.
  intros Hn.
  assert (Ha : 0 < inject_Z n) by (apply (proj1 (Zlt_Q 0 n)); lia).
  assert (Hf : (fexp (inject_Z n) <= 1)%Z).
  { unfold fexp. destruct (qlog2_spec _ Ha) as [L _].
    assert (pow2 (qlog2 (inject_Z n)) <= pow2 53).
    { eapply Qle_trans; [exact L |]. rewrite pow2_Z by lia. apply (proj1 (Zle_Q _ _)). lia. }
    assert (qlog2 (inject_Z n) <= 53)%Z by (apply pow2_le_inv; assumption). lia. }
  destruct (Z.eq_dec (fexp (inject_Z n)) 1) as [E | NE].
  - assert (L53 : pow2 53 <= inject_Z n).
    { destruct (fexp_spec _ Ha) as [_ [C | C]]; [lia |]. rewrite E in C. exact C. }
    assert (n = 2 ^ 53)%Z.
    { rewrite pow2_Z in L53 by lia. apply (proj2 (Zle_Q _ _)) in L53. lia. }
    apply (round_value_exact _ (2 ^ 52)); [exact Ha |]. rewrite E. subst n.
    rewrite <- !pow2_Z by lia. rewrite <- pow2_add. apply Qeq_refl.
  - apply (round_value_exact _ (n * 2 ^ (- fexp (inject_Z n)))); [exact Ha |].
    rewrite inject_Z_mult, <- pow2_Z by lia. apply Qeq_refl.
Qed.

Lemma round_value_le (j : Z) (a : Q) :
  (-1074 <= j)%Z -> 0 < a -> a <= pow2 j -> round_value a <= pow2 j.
Proof.
  intros Hj Ha H. eapply Qle_trans; [apply (round_value_mono a (pow2 j) Ha H) |].
  rewrite (round_value_pow2 j Hj). apply Qle_refl.
Qed.

Lemma round64_pos_fin (a : Q) :
  0 < a -> round_value a < pow2 1024 -> round64 a = Finite (Qred (round_value a)).
Proof.
  intros Ha Hr. unfold round64.
  replace (a ?= 0) with Gt by (symmetry; apply Qgt_alt; exact Ha).
  unfold round_pos. destruct (Qle_bool (pow2 1024) (round_value a)) eqn:E; [| reflexivity].
  apply Qle_bool_iff in E. exfalso. apply (Qlt_not_le _ _ Hr E).
Qed.

Lemma round64_neg_fin (a : Q) :
  a < 0 -> round_value (- a) < pow2 1024 -> round64 a = Finite (Qred (- round_value (- a))).
Proof.
  intros Ha Hr. unfold round64.
  replace (a ?= 0) with Lt by (symmetry; apply Qlt_alt; exact Ha).
  unfold round_pos. destruct (Qle_bool (pow2 1024) (round_value (- a))) eqn:E; [| reflexivity].
  apply Qle_bool_iff in E. exfalso. apply (Qlt_not_le _ _ Hr E).
Qed.

Lemma round64_zero (a : Q) : a == 0 -> round64 a = Finite 0.
Proof.
  intros Ha. unfold round64. replace (a ?= 0) with Eq by (symmetry; apply Qeq_alt; exact Ha).
  reflexivity.
Qed.

Lemma round64_comp (a b : Q) : a == b -> round64 a = round64 b.
Proof.
  intros H. destruct (Q_dec a 0) as [[Hn | Hp] | Hz].
  - assert (Hb : b < 0) by (rewrite <- H; exact Hn).
    unfold round64.
    replace (a ?= 0) with Lt by (symmetry; apply Qlt_alt; exact Hn).
    replace (b ?= 0) with Lt by (symmetry; apply Qlt_alt; exact Hb).
    assert (Hn' : 0 < - a) by lra.
    assert (R : round_value (- a) == round_value (- b))
      by (apply round_value_comp; [exact Hn' | rewrite H; reflexivity]).
    unfold round_pos.
    destruct (Qle_bool (pow2 1024) (round_value (- a))) eqn:E1,
             (Qle_bool (pow2 1024) (round_value (- b))) eqn:E2; try reflexivity;
      [apply Qle_bool_iff in E1; rewrite R in E1; apply Qle_bool_iff in E1; congruence
      | apply Qle_bool_iff in E2; rewrite <- R in E2; apply Qle_bool_iff in E2; congruence |].
    f_equal. apply Qred_complete. rewrite R. reflexivity.
  - assert (Hb : 0 < b) by (rewrite <- H; exact Hp).
    unfold round64.
    replace (a ?= 0) with Gt by (symmetry; apply Qgt_alt; exact Hp).
    replace (b ?= 0) with Gt by (symmetry; apply Qgt_alt; exact Hb).
    assert (R : round_value a == round_value b) by (apply round_value_comp; assumption).
    unfold round_pos.
    destruct (Qle_bool (pow2 1024) (round_value a)) eqn:E1,
             (Qle_bool (pow2 1024) (round_value b)) eqn:E2; try reflexivity;
      [apply Qle_bool_iff in E1; rewrite R in E1; apply Qle_bool_iff in E1; congruence
      | apply Qle_bool_iff in E2; rewrite <- R in E2; apply Qle_bool_iff in E2; congruence |].
    f_equal. apply Qred_complete. exact R.
  - rewrite (round64_zero a Hz). symmetry. apply round64_zero. rewrite <- H. exact Hz.
Qed.

(** Rounding a value of [-2^j, 2^j] gives a double of the same interval
    and the same sign, within 2^(j-53) of it. *)
Lemma round64_in (j : Z) (a : Q) :
  (0 <= j <= 1023)%Z -> - pow2 j <= a <= pow2 j ->
  exists x, round64 a = Finite x /\ - pow2 j <= x <= pow2 j /\
    (0 <= a -> 0 <= x) /\ (a <= 0 -> x <= 0) /\
    a - pow2 (j - 53) <= x <= a + pow2 (j - 53).
Proof.
  intros Hj [Ha1 Ha2].
  assert (P1024 : pow2 j < pow2 1024) by (apply pow2_lt; lia).
  assert (Pj : 0 < pow2 j) by apply pow2_pos.
  assert (Pe : 0 < pow2 (j - 53)) by apply pow2_pos.
  assert (Err : forall b, 0 < b -> b <= pow2 j ->
            b - pow2 (j - 53) <= round_value b <= b + pow2 (j - 53)).
  { intros b Hb Hbj. destruct (round_value_error b Hb) as [E1 E2].
    assert (Hq : (qlog2 b <= j)%Z).
    { apply pow2_le_inv. eapply Qle_trans; [apply (qlog2_spec b Hb) | exact Hbj]. }
    assert (Hp : pow2 (fexp b - 1) <= pow2 (j - 53)) by (apply pow2_le; unfold fexp; lia).
    split; lra. }
  destruct (Q_dec a 0) as [[Hn | Hp] | Hz].
  - assert (Hn' : 0 < - a) by lra.
    assert (Hb : - a <= pow2 j) by lra.
    pose proof (round_value_le j (- a) ltac:(lia) Hn' Hb) as R.
    pose proof (round_value_nonneg (- a) Hn') as R0.
    destruct (Err (- a) Hn' Hb) as [E1 E2].
    exists (Qred (- round_value (- a))).
    split; [apply round64_neg_fin; [exact Hn | eapply Qle_lt_trans; [exact R | exact P1024]] |].
    pose proof (Qred_correct (- round_value (- a))) as Rq. repeat split; intros; lra.
  - pose proof (round_value_le j a ltac:(lia) Hp Ha2) as R.
    pose proof (round_value_nonneg a Hp) as R0.
    destruct (Err a Hp Ha2) as [E1 E2].
    exists (Qred (round_value a)).
    split; [apply round64_pos_fin; [exact Hp | eapply Qle_lt_trans; [exact R | exact P1024]] |].
    pose proof (Qred_correct (round_value a)) as Rq. repeat split; intros; lra.
  - exists 0. split; [apply round64_zero, Hz |]. rewrite Hz. repeat split; intros; lra.
Qed.

Lemma Qred_inject_Z (n : Z) : Qred (inject_Z n) = inject_Z n.
Proof. apply Qred_identity. simpl. apply Z.gcd_1_r. Qed.

(** Integers of magnitude at most 2^53 are doubles. *)
Lemma round64_int (n : Z) : (Z.abs n <= 2 ^ 53)%Z -> round64 (inject_Z n) = Finite (inject_Z n).
Proof.
  intros Hn. assert (P : inject_Z (2 ^ 53) < pow2 1024)
    by (rewrite <- pow2_Z by lia; apply pow2_lt; lia).
  destruct (Z_lt_le_dec 0 n) as [Hp | Hle].
  - rewrite round64_pos_fin.
    + f_equal. rewrite <- (Qred_inject_Z n) at 2. apply Qred_complete, round_value_int. lia.
    + apply (proj1 (Zlt_Q 0 n)), Hp.
    + rewrite round_value_int by lia. eapply Qle_lt_trans; [| exact P].
      apply (proj1 (Zle_Q _ _)). lia.
  - destruct (Z.eq_dec n 0) as [-> | Hne]; [apply round64_zero; reflexivity |].
    assert (Hneg : inject_Z n < 0) by (apply (proj1 (Zlt_Q n 0)); lia).
    assert (E : - inject_Z n == inject_Z (- n)) by (rewrite inject_Z_opp; reflexivity).
    assert (R : round_value (- inject_Z n) == inject_Z (- n)).
    { rewrite (round_value_comp (- inject_Z n) (inject_Z (- n)) ltac:(lra) E).
      apply round_value_int. lia. }
    rewrite round64_neg_fin; [| exact Hneg |].
    2:{ rewrite R. eapply Qle_lt_trans; [| exact P]. apply (proj1 (Zle_Q _ _)). lia. }
    f_equal. rewrite <- (Qred_inject_Z n) at 2. apply Qred_complete. rewrite R, inject_Z_opp. ring.
Qed.

(** The value of a finite rounding. *)
Lemma round64_fin_val (a z : Q) :
  round64 a = Finite z ->
  (0 < a /\ z == round_value a /\ round_value a < pow2 1024) \/
  (a < 0 /\ z == - round_value (- a) /\ round_value (- a) < pow2 1024) \/
  (a == 0 /\ z == 0).
Proof.
  intros Ec. destruct (Q_dec a 0) as [[Hn | Hp] | Hz].
  - right; left. unfold round64 in Ec.
    replace (a ?= 0) with Lt in Ec by (symmetry; apply Qlt_alt; exact Hn).
    unfold round_pos in Ec. destruct (Qle_bool (pow2 1024) (round_value (- a))) eqn:E;
      [discriminate |].
    assert (Ez : Qred (- round_value (- a)) = z) by congruence.
    rewrite <- Ez, Qred_correct. split; [exact Hn | split; [reflexivity |]].
    apply Qnot_le_lt. intros C. apply Qle_bool_iff in C. congruence.
  - left. unfold round64 in Ec.
    replace (a ?= 0) with Gt in Ec by (symmetry; apply Qgt_alt; exact Hp).
    unfold round_pos in Ec. destruct (Qle_bool (pow2 1024) (round_value a)) eqn:E;
      [discriminate |].
    assert (Ez : Qred (round_value a) = z) by congruence.
    rewrite <- Ez, Qred_correct. split; [exact Hp | split; [reflexivity |]].
    apply Qnot_le_lt. intros C. apply Qle_bool_iff in C. congruence.
  - right; right. rewrite (round64_zero a Hz) in Ec. split; [exact Hz |].
    assert (Ez : 0 = z) by congruence. rewrite <- Ez. reflexivity.
Qed.

Lemma round64_mono (a b x y : Q) :
  a <= b -> round64 a = Finite x -> round64 b = Finite y -> x <= y.
Proof.
  intros Hab Ea Eb.
  destruct (round64_fin_val a x Ea) as [[A1 [A2 _]] | [[A1 [A2 _]] | [A1 A2]]];
  destruct (round64_fin_val b y Eb) as [[B1 [B2 _]] | [[B1 [B2 _]] | [B1 B2]]];
  rewrite ?A2, ?B2;
  try (pose proof (round_value_nonneg a A1));
  try (pose proof (round_value_nonneg b B1));
  try (assert (0 < - a) as A3 by lra; pose proof (round_value_nonneg (- a) A3));
  try (assert (0 < - b) as B3 by lra; pose proof (round_value_nonneg (- b) B3));
  try lra.
  - apply round_value_mono; assumption.
  - assert (round_value (- b) <= round_value (- a)) by (apply round_value_mono; lra). lra.
Qed.
(** A non-negative value rounds to a non-negative double or to +inf. *)
Lemma round64_nonneg (a : Q) :
  0 <= a -> round64 a = Infinite false \/ exists x, round64 a = Finite x /\ 0 <= x.
Proof.
  intros Ha. destruct (Qeq_dec a 0) as [Hz | Hnz].
  - right. exists 0. split; [apply round64_zero, Hz | apply Qle_refl].
  - assert (Hp : 0 < a) by (apply Qle_lt_or_eq in Ha as [H | H]; [exact H | symmetry in H; contradiction]).
    unfold round64. replace (a ?= 0) with Gt by (symmetry; apply Qgt_alt; exact Hp).
    unfold round_pos. destruct (Qle_bool _ _); [left; reflexivity | right].
    eexists. split; [reflexivity |]. pose proof (Qred_correct (round_value a)).
    pose proof (round_value_nonneg a Hp). lra.
Qed.

Lemma round64_nonpos (a : Q) :
  a <= 0 -> round64 a = Infinite true \/ exists x, round64 a = Finite x /\ x <= 0.
Proof.
  intros Ha. destruct (Qeq_dec a 0) as [Hz | Hnz].
  - right. exists 0. split; [apply round64_zero, Hz | apply Qle_refl].
  - assert (Hn : a < 0) by (apply Qle_lt_or_eq in Ha as [H | H]; [exact H | contradiction]).
    unfold round64. replace (a ?= 0) with Lt by (symmetry; apply Qlt_alt; exact Hn).
    unfold round_pos. destruct (Qle_bool _ _); [left; reflexivity | right].
    eexists. split; [reflexivity |]. pose proof (Qred_correct (- round_value (- a))).
    pose proof (round_value_nonneg (- a) ltac:(lra)). lra.
Qed.

End Binary64.

(** * The float operations of the program *)

Lemma round64_not_nan (q : Q) : round64 q <> NaN.
Proof.
  unfold round64, round_pos.
  destruct (q ?= 0)%Q; [discriminate | |];
    destruct (Qle_bool _ _); discriminate.
Qed.

Lemma pow2_Z_abs (j : Z) (n : Z) :
  0 <= j -> Z.abs n <= 2 ^ j -> (- pow2 j <= inject_Z n <= pow2 j)%Q.
Proof.
  intros Hj Hn. rewrite (pow2_Z j Hj).
  split; [rewrite <- inject_Z_opp |]; apply (proj1 (Zle_Q _ _)); lia.
Qed.

(** Integers of magnitude at most 2^53 convert to floats exactly. *)
Lemma py_float_int (n : Z) : Z.abs n <= 2 ^ 53 -> py_float n = Ok (inject_Z n).
Proof. intros Hn. unfold py_float. rewrite (round64_int n Hn). reflexivity. Qed.

(** `1 + r` for a rate r of [-1, 1] is a double of [0, 2]. *)
Lemma fadd_1p (r : Q) :
  (-1 <= r <= 1)%Q -> exists y, fadd 1 r = Finite y /\ (0 <= y <= 2)%Q.
Proof.
  intros Hr. unfold fadd.
  destruct (round64_in 1 (1 + r) ltac:(lia)) as [y [Ey [B [S _]]]];
    [change (pow2 1) with (2 # 1); lra |].
  exists y. split; [exact Ey |]. change (pow2 1) with (2 # 1) in B. split; [apply S; lra | lra].
Qed.

(** The steps of `int(n * (1 + r))` when every value is finite. *)
Lemma int_mul_1p_fin (n : Z) (r x y z : Q) :
  round64 (inject_Z n) = Finite x -> round64 (1 + r) = Finite y ->
  round64 (x * y) = Finite z -> int_mul_1p n r = Ok (trunc z).
Proof.
  intros Ex Ey Ez. unfold int_mul_1p, py_float, fadd. rewrite Ex, Ey. cbn [bind fmul].
  rewrite Ez. reflexivity.
Qed.

(** `int(n * (1 + r))` for |n| <= 2^j and a rate of [-1, 1]: no overflow,
    a result of magnitude at most 2^(j+1) with the sign of n. *)
Lemma int_mul_1p_bound (n : Z) (r : Q) (j : Z) :
  0 <= j <= 1022 -> Z.abs n <= 2 ^ j -> (-1 <= r <= 1)%Q ->
  exists x y z,
    round64 (inject_Z n) = Finite x /\ round64 (1 + r) = Finite y /\
    round64 (x * y) = Finite z /\ int_mul_1p n r = Ok (trunc z) /\
    Z.abs (trunc z) <= 2 ^ (j + 1) /\
    (0 <= n -> 0 <= trunc z) /\ (n <= 0 -> trunc z <= 0).
Proof.
  intros Hj Hn Hr.
  destruct (round64_in j (inject_Z n) ltac:(lia) (pow2_Z_abs j n ltac:(lia) Hn))
    as [x [Ex [Bx [Sx1 [Sx2 _]]]]].
  destruct (fadd_1p r Hr) as [y [Ey By]]. unfold fadd in Ey.
  assert (Pj : (0 < pow2 j)%Q) by apply pow2_pos.
  assert (E1 : (pow2 (j + 1) == pow2 j * 2)%Q) by (rewrite pow2_add; reflexivity).
  assert (Bxy : (- pow2 (j + 1) <= x * y <= pow2 (j + 1))%Q).
  { rewrite E1. destruct Bx as [Bx1 Bx2]. destruct By as [By1 By2].
    destruct (Qlt_le_dec x 0) as [Hx | Hx].
    - split; [| apply (Qle_trans _ 0); [| lra];
                 setoid_replace (x * y)%Q with (- ((- x) * y))%Q by ring;
                 assert (0 <= (- x) * y)%Q by (apply Qmult_le_0_compat; lra); lra].
      setoid_replace (x * y)%Q with (- ((- x) * y))%Q by ring.
      assert ((- x) * y <= pow2 j * 2)%Q.
      { apply (Qle_trans _ (pow2 j * y)); [apply Qmult_le_compat_r; lra |].
        rewrite (Qmult_comm (pow2 j)), (Qmult_comm (pow2 j) 2).
        apply Qmult_le_compat_r; lra. }
      lra.
    - split; [apply (Qle_trans _ 0); [lra | apply Qmult_le_0_compat; lra] |].
      apply (Qle_trans _ (pow2 j * y)); [apply Qmult_le_compat_r; lra |].
      rewrite (Qmult_comm (pow2 j)), (Qmult_comm (pow2 j) 2).
      apply Qmult_le_compat_r; lra. }
  destruct (round64_in (j + 1) (x * y) ltac:(lia) Bxy) as [z [Ez [Bz [Sz1 [Sz2 _]]]]].
  exists x, y, z. split; [exact Ex | split; [exact Ey | split; [exact Ez |]]].
  split; [exact (int_mul_1p_fin n r x y z Ex Ey Ez) |].
  rewrite pow2_Z in Bz by lia. destruct Bz as [Bz1 Bz2].
  rewrite <- inject_Z_opp in Bz1.
  pose proof (trunc_lower _ _ Bz1). pose proof (trunc_upper _ _ Bz2).
  split; [lia | split].
  - intros Hn0. apply trunc_lower. apply Sz1. apply Qmult_le_0_compat; [apply Sx1 | lra].
    apply (proj1 (Zle_Q 0 n)). exact Hn0.
  - intros Hn0. apply trunc_upper. apply Sz2.
    assert (x <= 0)%Q by (apply Sx2; apply (proj1 (Zle_Q n 0)); exact Hn0).
    setoid_replace (x * y)%Q with (- ((- x) * y))%Q by ring.
    assert (0 <= (- x) * y)%Q by (apply Qmult_le_0_compat; lra). lra.
Qed.

(** A zero rate leaves an int of magnitude at most 2^53 unchanged. *)
Lemma int_mul_1p_zero (n : Z) : Z.abs n <= 2 ^ 53 -> int_mul_1p n 0 = Ok n.
Proof.
  intros Hn.
  assert (E1 : round64 (1 + 0) = Finite 1)
    by (rewrite (round64_comp (1 + 0) (inject_Z 1)) by reflexivity;
        apply (round64_int 1); lia).
  assert (E2 : round64 (inject_Z n * 1) = Finite (inject_Z n))
    by (rewrite (round64_comp _ (inject_Z n)) by ring; apply round64_int, Hn).
  rewrite (int_mul_1p_fin n 0 (inject_Z n) 1 (inject_Z n) (round64_int n Hn) E1 E2).
  f_equal. apply trunc_inject_Z.
Qed.

(** Once `1 + r` is finite, `int(n * (1 + r))` can only fail with
    OverflowError. *)
Lemma int_mul_1p_ok_or_overflow (n n' : Z) (r : Q) (m : Z) :
  int_mul_1p n r = Ok m ->
  (exists m', int_mul_1p n' r = Ok m') \/ int_mul_1p n' r = Err OverflowError.
Proof.
  unfold int_mul_1p, py_float, fadd.
  destruct (round64 (inject_Z n)) as [x | | ]; try discriminate. cbn [bind].
  destruct (round64 (1 + r)) as [y | s | ] eqn:Ey; cbn [fmul].
  - intros _. destruct (round64 (inject_Z n')) as [x' | | ]; cbn [bind]; [| auto | auto].
    cbn [fmul]. destruct (round64 (x' * y)) as [z | | ] eqn:Ez; cbn [py_int_float].
    + left. eexists. reflexivity.
    + right. reflexivity.
    + exfalso. exact (round64_not_nan _ Ez).
  - destruct (Qeq_bool x 0); discriminate.
  - discriminate.
Qed.

(** `int(n * (1 + r))` is monotone in n when r >= -1. *)
Lemma int_mul_1p_mono (n n' : Z) (r : Q) (m m' : Z) :
  n <= n' -> (-1 <= r)%Q ->
  int_mul_1p n r = Ok m -> int_mul_1p n' r = Ok m' -> m <= m'.
Proof.
  intros Hn Hr. unfold int_mul_1p, py_float, fadd.
  destruct (round64 (inject_Z n)) as [x | | ] eqn:Ex; try discriminate.
  destruct (round64 (inject_Z n')) as [x' | | ] eqn:Ex'; cbn [bind]; try (intros _; discriminate).
  destruct (round64 (1 + r)) as [y | s | ] eqn:Ey; cbn [fmul];
    [| destruct (Qeq_bool x 0); discriminate | discriminate].
  assert (Hy : (0 <= y)%Q).
  { apply (round64_mono 0 (1 + r) 0 y); [lra | apply round64_zero; reflexivity | exact Ey]. }
  assert (Hx : (x <= x')%Q).
  { apply (round64_mono (inject_Z n) (inject_Z n') x x'); [| exact Ex | exact Ex'].
    apply (proj1 (Zle_Q _ _)). exact Hn. }
  destruct (round64 (x * y)) as [z | | ] eqn:Ez; cbn [py_int_float]; try discriminate.
  destruct (round64 (x' * y)) as [z' | | ] eqn:Ez'; cbn [py_int_float]; try discriminate.
  intros E E'. injection E as <-. injection E' as <-.
  apply trunc_mono. apply (round64_mono (x * y) (x' * y)); [| exact Ez | exact Ez'].
  apply Qmult_le_compat_r; assumption.
Qed.

(** A non-positive int times (1 + r), r >= -1, stays non-positive, unless
    a value leaves the double range (OverflowError) or an infinite factor
    meets 0 (ValueError). *)
Lemma int_mul_1p_nonpos (n : Z) (r : Q) :
  n <= 0 -> (-1 <= r)%Q ->
  (exists m, int_mul_1p n r = Ok m /\ m <= 0) \/
  int_mul_1p n r = Err OverflowError \/ int_mul_1p n r = Err ValueError.
Proof.
  intros Hn Hr. unfold int_mul_1p, py_float, fadd.
  assert (Hn' : (inject_Z n <= 0)%Q) by (apply (proj1 (Zle_Q n 0)); exact Hn).
  destruct (round64_nonpos (inject_Z n) Hn') as [E | [x [E Hx]]]; rewrite E; cbn [bind];
    [right; left; reflexivity |].
  destruct (round64_nonneg (1 + r) ltac:(lra)) as [Ey | [y [Ey Hy]]]; rewrite Ey; cbn [fmul].
  - destruct (Qeq_bool x 0); [right; right | right; left]; reflexivity.
  - assert (Hxy : (x * y <= 0)%Q).
    { setoid_replace (x * y)%Q with (- ((- x) * y))%Q by ring.
      assert (0 <= (- x) * y)%Q by (apply Qmult_le_0_compat; lra). lra. }
    destruct (round64_nonpos (x * y) Hxy) as [Ez | [z [Ez Hz]]]; rewrite Ez;
      cbn [py_int_float]; [right; left; reflexivity |].
    left. exists (trunc z). split; [reflexivity |]. apply trunc_upper. exact Hz.
Qed.

(** * Lists *)

Lemma py_getitem_nth {A : Type} (l : list A) (k : nat) (x : A) :
  nth_error l k = Some x -> py_getitem l (Z.of_nat k) = Ok x.
Proof.
  intros H. unfold py_getitem.
  assert (Hk : (k < length l)%nat) by (apply nth_error_Some; congruence).
  replace (Z.of_nat k <? 0) with false by (symmetry; apply Z.ltb_ge; lia).
  replace ((Z.of_nat k <? 0) || (Z.of_nat (length l) <=? Z.of_nat k))
    with false by (symmetry; apply orb_false_iff; split;
                   [apply Z.ltb_ge | apply Z.leb_gt]; lia).
  replace ((false || (Z.of_nat (length l) <=? Z.of_nat k))) with false
    by (symmetry; apply Z.leb_gt; lia).
  rewrite Nat2Z.id, H. reflexivity.
Qed.

Lemma py_getitem_nth_inv {A : Type} (l : list A) (k : nat) (x : A) :
  py_getitem l (Z.of_nat k) = Ok x -> nth_error l k = Some x.
Proof.
  unfold py_getitem. replace (Z.of_nat k <? 0) with false by (symmetry; apply Z.ltb_ge; lia).
  destruct (_ || _); [discriminate |]. rewrite Nat2Z.id.
  destruct (nth_error l k); [| discriminate]. intros H; injection H as ->. reflexivity.
Qed.

Lemma py_getitem_in {A : Type} (l : list A) (i : Z) (x : A) :
  py_getitem l i = Ok x -> In x l.
Proof.
  unfold py_getitem. destruct (_ || _); [discriminate |].
  destruct (nth_error l _) eqn:E; [| discriminate].
  intros H. injection H as <-. eapply nth_error_In; exact E.
Qed.

Lemma py_getitem_mod (l : list Q) (i : Z) :
  (0 < length l)%nat ->
  (k <- py_mod i (Z.of_nat (length l)) ;; py_getitem l k) = Ok (wrap_item l i).
Proof.
  intros Hl. unfold py_mod.
  replace (Z.of_nat (length l) =? 0) with false by (symmetry; apply Z.eqb_neq; lia).
  cbn [bind]. unfold wrap_item.
  pose proof (Z.mod_pos_bound i (Z.of_nat (length l))) as B.
  rewrite <- (Z2Nat.id (i mod Z.of_nat (length l))) at 1 by lia.
  apply py_getitem_nth, nth_error_nth'. lia.
Qed.

Lemma build_lists_ok (returns infl_rate : list Q) (lifespan : list Z) (lr li : list Q) :
  (0 < length returns)%nat -> (0 < length infl_rate)%nat ->
  build_lists returns infl_rate lifespan lr li =
    Ok (lr ++ map (wrap_item returns) lifespan, li ++ map (wrap_item infl_rate) lifespan).
Proof.
  intros Hr Hi. revert lr li.
  induction lifespan as [| i rest IH]; intros lr li.
  - rewrite !app_nil_r. reflexivity.
  - cbn [build_lists].
    pose proof (py_getitem_mod returns i Hr) as E1.
    pose proof (py_getitem_mod infl_rate i Hi) as E2.
    destruct (py_mod i (Z.of_nat (length returns))) as [k |]; [| discriminate].
    cbn [bind] in E1 |- *. rewrite E1. cbn [bind].
    destruct (py_mod i (Z.of_nat (length infl_rate))) as [k' |]; [| discriminate].
    cbn [bind] in E2 |- *. rewrite E2. cbn [bind].
    rewrite IH, <- !app_assoc. reflexivity.
Qed.

Lemma build_lists_length (returns infl_rate : list Q) (lifespan : list Z) :
  forall lr0 li0 lr li,
    build_lists returns infl_rate lifespan lr0 li0 = Ok (lr, li) ->
    length lr = (length lr0 + length lifespan)%nat.
Proof.
  induction lifespan as [| i rest IH]; intros lr0 li0 lr li E.
  - cbn in E. injection E as <- <-. simpl. lia.
  - cbn [build_lists] in E.
    destruct (py_mod i _) as [k |]; [| discriminate]. cbn [bind] in E.
    destruct (py_getitem returns k) as [r |]; [| discriminate]. cbn [bind] in E.
    destruct (py_mod i (Z.of_nat (length infl_rate))) as [k' |]; [| discriminate].
    cbn [bind] in E.
    destruct (py_getitem infl_rate k') as [f |]; [| discriminate]. cbn [bind] in E.
    rewrite (IH _ _ _ _ E), length_app. simpl. lia.
Qed.

Lemma build_lists_in (returns infl_rate : list Q) (lifespan : list Z) :
  forall lr0 li0 lr li,
    build_lists returns infl_rate lifespan lr0 li0 = Ok (lr, li) ->
    (forall x, In x lr -> In x lr0 \/ In x returns) /\
    (forall x, In x li -> In x li0 \/ In x infl_rate).
Proof.
  induction lifespan as [| i rest IH]; intros lr0 li0 lr li E.
  - cbn in E. injection E as <- <-. split; auto.
  - cbn [build_lists] in E.
    destruct (py_mod i _) as [k |]; [| discriminate]. cbn [bind] in E.
    destruct (py_getitem returns k) as [r |] eqn:Er; [| discriminate]. cbn [bind] in E.
    destruct (py_mod i (Z.of_nat (length infl_rate))) as [k' |]; [| discriminate].
    cbn [bind] in E.
    destruct (py_getitem infl_rate k') as [f |] eqn:Ef; [| discriminate]. cbn [bind] in E.
    destruct (IH _ _ _ _ E) as [H1 H2]. split.
    + intros x Hx. destruct (H1 x Hx) as [Hin | Hin]; [| auto].
      apply in_app_or in Hin as [Hin | [<- | []]]; [auto | right].
      eapply py_getitem_in; exact Er.
    + intros x Hx. destruct (H2 x Hx) as [Hin | Hin]; [| auto].
      apply in_app_or in Hin as [Hin | [<- | []]]; [auto | right].
      eapply py_getitem_in; exact Ef.
Qed.

Lemma in_map_wrap (l : list Q) (xs : list Z) (q : Q) :
  (0 < length l)%nat -> In q (map (wrap_item l) xs) -> In q l.
Proof.
  intros Hl Hq. apply in_map_iff in Hq as [i [<- _]]. unfold wrap_item.
  apply nth_In. pose proof (Z.mod_pos_bound i (Z.of_nat (length l))). lia.
Qed.

Lemma nth_error_py_range (s d : Z) (j : nat) :
  0 <= d -> (j < Z.to_nat d)%nat ->
  nth_error (py_range s (s + d)) j = Some (s + Z.of_nat j).
Proof.
  intros Hd Hj. unfold py_range.
  replace (s + d - s) with d by lia.
  rewrite nth_error_map, nth_error_seq.
  replace (Nat.ltb j (Z.to_nat d)) with true by (symmetry; apply Nat.ltb_lt; lia).
  reflexivity.
Qed.

Lemma length_py_range (s d : Z) : length (py_range s (s + d)) = Z.to_nat d.
Proof.
  unfold py_range. rewrite length_map, length_seq. f_equal. lia.
Qed.

Lemma py_range_split (s d d' : Z) :
  0 <= d <= d' ->
  py_range s (s + d') = py_range s (s + d) ++ py_range (s + d) (s + d').
Proof.
  intros Hd. unfold py_range.
  replace (Z.to_nat (s + d' - s)) with (Z.to_nat (s + d - s) + Z.to_nat (s + d' - (s + d)))%nat
    by lia.
  rewrite seq_app, map_app. f_equal.
  apply nth_error_ext. intros j.
  rewrite !nth_error_map, !nth_error_seq.
  destruct (Nat.ltb j _); simpl; [f_equal; lia | reflexivity].
Qed.

Lemma last_cons_Z (x : Z) (l : list Z) (d : Z) : last (x :: l) d = last l x.
Proof.
  revert x d. induction l as [| y l IH]; intros x d; [reflexivity |].
  change (last (y :: l) d = last (y :: l) x). rewrite !IH. reflexivity.
Qed.

(** * The year loop *)

Lemma next_withdrawal_first (W wadj : Z) (index : nat) (infl : Q) :
  next_withdrawal W index wadj infl =
  (if Nat.eqb index 0 then Ok (if Nat.eqb index 0 then W else wadj)
   else int_mul_1p (if Nat.eqb index 0 then W else wadj) infl).
Proof. unfold next_withdrawal. destruct (Nat.eqb index 0); reflexivity. Qed.

(** The year loop computes the recurrence of the spec with the products of
    the program. *)
Lemma year_loop_spec (W : Z) (rest pre : list (Q * Q)) (wadj inv : Z) :
  (r <- year_loop W (map snd (pre ++ rest)) (length pre) wadj inv (map fst rest) ;;
   Ok (recorded r, snd r)) =
  spec_result int_mul_1p (if Nat.eqb (length pre) 0 then W else wadj) inv
              (Nat.eqb (length pre) 0) rest.
Proof.
  revert pre wadj inv.
  induction rest as [| [ret infl] rest IH]; intros pre wadj inv.
  - reflexivity.
  - simpl map at 2. cbn [year_loop].
    rewrite (py_getitem_nth _ _ infl).
    2:{ rewrite map_app, nth_error_app2 by (rewrite length_map; lia).
        rewrite length_map, Nat.sub_diag. reflexivity. }
    cbn [bind spec_result]. rewrite next_withdrawal_first.
    destruct (if Nat.eqb (length pre) 0 then _ else _) as [w | e]; cbn [bind]; [| reflexivity].
    destruct (int_mul_1p (inv - w) ret) as [b2 | e]; cbn [bind]; [| reflexivity].
    destruct (b2 <=? 0); [reflexivity |].
    specialize (IH (pre ++ [(ret, infl)]) w b2).
    rewrite <- app_assoc in IH. simpl app in IH.
    rewrite length_app in IH. simpl length in IH. rewrite Nat.add_1_r in IH.
    simpl Nat.eqb in IH. exact IH.
Qed.

(** The lines of the spec's trace and the result of the year loop. *)
Lemma year_loop_trace (W : Z) (rest pre : list (Q * Q)) :
  forall wadj inv lines r,
    spec_trace int_mul_1p (if Nat.eqb (length pre) 0 then W else wadj) inv
               (Nat.eqb (length pre) 0) rest = Ok lines ->
    year_loop W (map snd (pre ++ rest)) (length pre) wadj inv (map fst rest) = Ok r ->
    (snd r = false <-> Forall (fun l : Z * Z * Z => 0 < snd l) lines) /\
    (snd r = false -> length lines = length rest) /\
    fst r = last (map snd lines) inv.
Proof.
  revert pre.
  induction rest as [| [ret infl] rest IH]; intros pre wadj inv lines r Ht Er.
  - cbn in Ht, Er. injection Ht as <-. injection Er as <-. cbn.
    split; [split; [constructor | reflexivity] | split; reflexivity].
  - simpl map at 2 in Er. cbn [year_loop] in Er.
    rewrite (py_getitem_nth _ _ infl) in Er.
    2:{ rewrite map_app, nth_error_app2 by (rewrite length_map; lia).
        rewrite length_map, Nat.sub_diag. reflexivity. }
    cbn [bind spec_trace] in Er, Ht. rewrite next_withdrawal_first in Er.
    destruct (if Nat.eqb (length pre) 0 then _ else _) as [w | e]; cbn [bind] in Er, Ht;
      [| discriminate].
    destruct (int_mul_1p (inv - w) ret) as [b2 | e]; cbn [bind] in Er, Ht; [| discriminate].
    destruct (b2 <=? 0) eqn:Hb.
    + injection Ht as <-. injection Er as <-. apply Z.leb_le in Hb. cbn.
      split; [split; [discriminate | intros HF; inversion HF; cbn in *; lia] |].
      split; [discriminate | reflexivity].
    + apply Z.leb_gt in Hb.
      destruct (spec_trace int_mul_1p w b2 false rest) as [t | e] eqn:Et; cbn [bind] in Ht;
        [| discriminate].
      injection Ht as <-.
      specialize (IH (pre ++ [(ret, infl)]) w b2 t r).
      rewrite <- app_assoc in IH. simpl app in IH.
      rewrite length_app in IH. simpl length in IH. rewrite Nat.add_1_r in IH.
      simpl Nat.eqb in IH. destruct (IH Et Er) as [H1 [H2 H3]].
      split; [| split].
      * rewrite H1, Forall_cons_iff. cbn. split; [tauto | intros [_ H]; exact H].
      * intros Hs. cbn. rewrite (H2 Hs). reflexivity.
      * rewrite H3. cbn [map]. rewrite last_cons_Z. reflexivity.
Qed.

Lemma year_loop_outcome (W : Z) (li : list Q) (lr : list Q) :
  forall index wadj inv r,
    year_loop W li index wadj inv lr = Ok r ->
    (snd r = true -> fst r <= 0) /\
    (snd r = false -> (lr = [] /\ fst r = inv) \/ (lr <> [] /\ 0 < fst r)).
Proof.
  induction lr as [| i rest IH]; intros index wadj inv r E.
  - cbn in E. injection E as <-. simpl. split; [discriminate | auto].
  - cbn [year_loop] in E.
    destruct (py_getitem li (Z.of_nat index)) as [infl |]; [| discriminate].
    cbn [bind] in E.
    destruct (next_withdrawal W index wadj infl) as [w |]; [| discriminate].
    cbn [bind] in E.
    destruct (int_mul_1p (inv - w) i) as [b2 |]; [| discriminate].
    cbn [bind] in E.
    destruct (b2 <=? 0) eqn:Hb.
    + injection E as <-. apply Z.leb_le in Hb. simpl. split; [auto | discriminate].
    + apply Z.leb_gt in Hb.
      destruct (IH _ _ _ _ E) as [H1 H2]. split; [exact H1 |].
      intros Hs. right. split; [discriminate |].
      destruct (H2 Hs) as [[_ ->] | [_ Hp]]; lia.
Qed.

Lemma pow2Z_le (a b : Z) : 0 <= a <= b -> 2 ^ a <= 2 ^ b.
Proof. intros H. apply Z.pow_le_mono_r; lia. Qed.

Lemma pow2Z_double (a : Z) : 0 <= a -> 2 ^ (a + 1) = 2 * 2 ^ a.
Proof. intros H. rewrite Z.pow_add_r by lia. lia. Qed.

(** No OverflowError in the year loop: with rates of [-1, 1], at most 400
    years, a withdrawal and a start value of magnitude at most 2^53, the
    withdrawal of year i stays below 2^(53+i) and the balance below
    2^(54+2i). *)
Lemma year_loop_no_overflow (W : Z) (li lr : list Q) :
  Z.abs W <= 2 ^ 53 ->
  (forall q, In q li -> (-1 <= q <= 1)%Q) -> (forall q, In q lr -> (-1 <= q <= 1)%Q) ->
  forall (index : nat) (wadj inv : Z),
    (index + length lr <= length li)%nat -> (index + length lr <= 400)%nat ->
    (index = 0%nat \/ Z.abs wadj <= 2 ^ (52 + Z.of_nat index)) ->
    Z.abs inv <= 2 ^ (54 + 2 * Z.of_nat index) ->
    exists r, year_loop W li index wadj inv lr = Ok r /\
      Z.abs (fst r) <= 2 ^ (54 + 2 * Z.of_nat (index + length lr)).
Proof.
  intros HW Hli. induction lr as [| x rest IH]; intros Hlr index wadj inv Hl1 Hl2 Hw Hv.
  - exists (inv, false). split; [reflexivity |]. simpl fst. rewrite Nat.add_0_r. exact Hv.
  - simpl length in Hl1, Hl2 |- *. cbn [year_loop].
    assert (Hinfl : (-1 <= nth index li 0%Q <= 1)%Q) by (apply Hli, nth_In; lia).
    rewrite (py_getitem_nth _ _ (nth index li 0%Q)) by (apply nth_error_nth'; lia).
    cbn [bind].
    assert (Hwb : exists w, next_withdrawal W index wadj (nth index li 0%Q) = Ok w /\
                  Z.abs w <= 2 ^ (53 + Z.of_nat index)).
    { unfold next_withdrawal. destruct (Nat.eqb index 0) eqn:Hi0.
      - exists W. split; [reflexivity |].
        pose proof (pow2Z_le 53 (53 + Z.of_nat index) ltac:(lia)). lia.
      - apply Nat.eqb_neq in Hi0. destruct Hw as [Hw | Hw]; [contradiction |].
        destruct (int_mul_1p_bound wadj _ (52 + Z.of_nat index) ltac:(lia) Hw Hinfl)
          as [? [? [z [_ [_ [_ [E [B _]]]]]]]].
        exists (trunc z). split; [exact E |].
        replace (53 + Z.of_nat index) with (52 + Z.of_nat index + 1) by lia. exact B. }
    destruct Hwb as [w [Ew Bw]]. rewrite Ew. cbn [bind].
    assert (Bd : Z.abs (inv - w) <= 2 ^ (55 + 2 * Z.of_nat index)).
    { pose proof (pow2Z_le (53 + Z.of_nat index) (54 + 2 * Z.of_nat index) ltac:(lia)).
      replace (55 + 2 * Z.of_nat index) with (54 + 2 * Z.of_nat index + 1) by lia.
      rewrite pow2Z_double by lia. lia. }
    destruct (int_mul_1p_bound (inv - w) x (55 + 2 * Z.of_nat index) ltac:(lia) Bd
                (Hlr x (or_introl eq_refl))) as [? [? [z [_ [_ [_ [E [B _]]]]]]]].
    rewrite E. cbn [bind].
    destruct (trunc z <=? 0).
    + eexists. split; [reflexivity |]. simpl fst.
      pose proof (pow2Z_le (55 + 2 * Z.of_nat index + 1)
                    (54 + 2 * Z.of_nat (index + S (length rest))) ltac:(lia)). lia.
    + destruct (IH (fun q Hq => Hlr q (or_intror Hq)) (S index) w (trunc z))
        as [r [Er Br]]; [lia | lia | | |].
      * right. rewrite Nat2Z.inj_succ.
        replace (52 + Z.succ (Z.of_nat index)) with (53 + Z.of_nat index) by lia. exact Bw.
      * rewrite Nat2Z.inj_succ.
        replace (54 + 2 * Z.succ (Z.of_nat index)) with (55 + 2 * Z.of_nat index + 1) by lia.
        exact B.
      * exists r. split; [exact Er |].
        replace (index + S (length rest))%nat with (S index + length rest)%nat by lia.
        exact Br.
Qed.

(** * Trials *)

(** Lines 116-164 once a trial's lists are built: the year loop starts from
    `int(start_value)` with the first-year withdrawal `int(withdrawal)`. *)
Lemma run_case_year_loop (p : params) (returns infl_rate : list Q) (s : sample) :
  (0 < length returns)%nat -> (0 < length infl_rate)%nat ->
  exists start_year,
    0 <= start_year /\
    run_case p returns infl_rate s =
      year_loop (withdrawal p)
        (map (wrap_item infl_rate) (py_range start_year (start_year + duration_of s)))
        0 0 (start_value p)
        (map (wrap_item returns) (py_range start_year (start_year + duration_of s))).
Proof.
  intros Hr Hi. unfold run_case, randrange0.
  replace (Z.of_nat (length returns) <=? 0) with false by (symmetry; apply Z.leb_gt; lia).
  cbn [bind].
  exists (raw_start s mod Z.of_nat (length returns)).
  split; [apply Z.mod_pos_bound; lia |].
  rewrite build_lists_ok by assumption. reflexivity.
Qed.

(** A trial raises nothing when the rates lie in [-1, 1], the duration is
    at most 400 years and the start value and withdrawal have magnitude at
    most 2^53; its final balance then has magnitude at most 2^854. *)
Lemma run_case_no_overflow (p : params) (returns infl_rate : list Q) (s : sample) :
  (0 < length returns)%nat -> (0 < length infl_rate)%nat ->
  (forall q, In q returns -> (-1 <= q <= 1)%Q) ->
  (forall q, In q infl_rate -> (-1 <= q <= 1)%Q) ->
  duration_of s <= 400 -> Z.abs (start_value p) <= 2 ^ 53 -> Z.abs (withdrawal p) <= 2 ^ 53 ->
  exists r, run_case p returns infl_rate s = Ok r /\ Z.abs (fst r) <= 2 ^ 854.
Proof.
  intros Hr Hi Hrq Hiq Hd Hv HW.
  destruct (run_case_year_loop p returns infl_rate s Hr Hi) as [sy [_ ->]].
  destruct (year_loop_no_overflow (withdrawal p)
              (map (wrap_item infl_rate) (py_range sy (sy + duration_of s)))
              (map (wrap_item returns) (py_range sy (sy + duration_of s))) HW)
    with (index := 0%nat) (wadj := 0) (inv := start_value p) as [r [E B]].
  - intros q Hq. apply Hiq. exact (in_map_wrap _ _ _ Hi Hq).
  - intros q Hq. apply Hrq. exact (in_map_wrap _ _ _ Hr Hq).
  - rewrite !length_map. lia.
  - rewrite length_map, length_py_range. lia.
  - left; reflexivity.
  - simpl. pose proof (pow2Z_le 53 54 ltac:(lia)). lia.
  - exists r. split; [exact E |]. eapply Z.le_trans; [exact B |]. apply pow2Z_le.
    rewrite length_map, length_py_range. lia.
Qed.

Lemma run_case_outcome (p : params) (returns infl_rate : list Q) (s : sample) r :
  run_case p returns infl_rate s = Ok r ->
  (snd r = true -> fst r <= 0) /\
  (snd r = false -> (duration_of s <= 0 /\ fst r = start_value p) \/
                    (0 < duration_of s /\ 0 < fst r)).
Proof.
  unfold run_case. intros E.
  destruct (randrange0 _ _) as [sy |]; [| discriminate]. cbn [bind] in E.
  destruct (build_lists _ _ _ _ _) as [[lr li] |] eqn:Eb; [| discriminate].
  cbn [bind fst snd] in E.
  pose proof (build_lists_length _ _ _ _ _ _ _ Eb) as Hl.
  rewrite length_py_range in Hl. simpl in Hl.
  destruct (year_loop_outcome _ _ _ _ _ _ _ E) as [H1 H2].
  split; [exact H1 |]. intros Hs. destruct (H2 Hs) as [[-> ->] | [Hn Hp]].
  - left. simpl in Hl. lia.
  - right. split; [| exact Hp]. destruct lr; [contradiction | simpl in Hl; lia].
Qed.

(** With a positive starting value, a trial records 0 exactly when it is
    insolvent. *)
Lemma recorded_zero_iff (p : params) (returns infl_rate : list Q) (s : sample) r :
  0 < start_value p ->
  run_case p returns infl_rate s = Ok r ->
  (recorded r = 0 <-> snd r = true).
Proof.
  intros Hv E. destruct (run_case_outcome _ _ _ _ _ E) as [_ H2].
  unfold recorded. destruct (snd r); [tauto |].
  split; [| discriminate]. intros Hz. destruct (H2 eq_refl); lia.
Qed.

Lemma recorded_nonneg (p : params) (returns infl_rate : list Q) (s : sample) r :
  0 <= start_value p ->
  run_case p returns infl_rate s = Ok r -> 0 <= recorded r.
Proof.
  intros Hv E. destruct (run_case_outcome _ _ _ _ _ E) as [_ H2].
  unfold recorded. destruct (snd r); [lia |]. destruct (H2 eq_refl); lia.
Qed.

(** * The trial loop *)

Lemma mc_loop_inv (p : params) (returns infl_rate : list Q) (rng : nat -> sample) :
  forall fuel case_count outcome bankrupt_count out bc,
    mc_loop p returns infl_rate rng fuel case_count outcome bankrupt_count = Ok (out, bc) ->
    exists results,
      length results = fuel /\
      (forall j r, nth_error results j = Some r ->
                   run_case p returns infl_rate (rng (case_count + j)%nat) = Ok r) /\
      out = outcome ++ map recorded results /\
      bc = bankrupt_count + count_insolvent results.
Proof.
  induction fuel as [| fuel IH]; intros k outc bcount out bc E.
  - cbn in E. injection E as <- <-. exists []. split; [reflexivity | split].
    + intros j r H. destruct j; discriminate.
    + cbn. rewrite app_nil_r, Z.add_0_r. split; reflexivity.
  - cbn [mc_loop] in E.
    destruct (run_case p returns infl_rate (rng k)) as [r |] eqn:Er; [| discriminate].
    cbn [bind] in E.
    destruct (snd r) eqn:Hs; destruct (IH _ _ _ _ _ E) as [rs [Hlen [Hrs [Ho Hb]]]];
      exists (r :: rs); (split; [simpl; lia | split]);
      try (intros [| j] r' Hj;
           [injection Hj as <-; rewrite Nat.add_0_r; exact Er
           | rewrite <- Nat.add_succ_comm; apply Hrs; exact Hj]);
      unfold count_insolvent in *; simpl map; simpl filter; unfold recorded at 1;
      rewrite Hs, Ho, Hb, <- app_assoc; simpl app; (split; [reflexivity |]).
    + simpl length. rewrite Nat2Z.inj_succ. lia.
    + reflexivity.
Qed.

Lemma mc_loop_ok (p : params) (returns infl_rate : list Q) (rng : nat -> sample) :
  forall fuel case_count outcome bankrupt_count,
    (forall j, (j < fuel)%nat ->
       exists r, run_case p returns infl_rate (rng (case_count + j)%nat) = Ok r) ->
    exists out bc,
      mc_loop p returns infl_rate rng fuel case_count outcome bankrupt_count = Ok (out, bc).
Proof.
  induction fuel as [| fuel IH]; intros k outc bcount Hok.
  - eexists _, _. reflexivity.
  - destruct (Hok 0%nat ltac:(lia)) as [r Er]. rewrite Nat.add_0_r in Er.
    cbn [mc_loop]. rewrite Er. cbn [bind].
    destruct (snd r); apply IH; intros j Hj;
      rewrite Nat.add_succ_comm; apply Hok; lia.
Qed.

Lemma count_zeros_recorded (p : params) (returns infl_rate : list Q) (rng : nat -> sample)
    (k : nat) (results : list (Z * bool)) :
  0 < start_value p ->
  (forall j r, nth_error results j = Some r ->
               run_case p returns infl_rate (rng (k + j)%nat) = Ok r) ->
  count_zeros (map recorded results) = count_insolvent results.
Proof.
  intros Hv. revert k. induction results as [| r rs IH]; intros k Hrs; [reflexivity |].
  assert (Er : run_case p returns infl_rate (rng k) = Ok r)
    by (rewrite <- (Nat.add_0_r k); apply (Hrs 0%nat); reflexivity).
  pose proof (recorded_zero_iff _ _ _ _ _ Hv Er) as Hz.
  assert (IH' : count_zeros (map recorded rs) = count_insolvent rs).
  { apply (IH (S k)). intros j r' H. rewrite Nat.add_succ_comm. apply (Hrs (S j)).
    exact H. }
  unfold count_zeros, count_insolvent in *. simpl map. simpl filter.
  destruct (snd r) eqn:Hs.
  - replace (recorded r =? 0) with true by (symmetry; apply Z.eqb_eq; tauto).
    simpl length. lia.
  - replace (recorded r =? 0) with false
      by (symmetry; apply Z.eqb_neq; intros H; apply Hz in H; discriminate).
    exact IH'.
Qed.

(** * The reported figures *)

Lemma fold_min_spec (xs : list Z) : forall a,
  fold_left Z.min xs a <= a /\ (forall x, In x xs -> fold_left Z.min xs a <= x) /\
  (fold_left Z.min xs a = a \/ In (fold_left Z.min xs a) xs).
Proof.
  induction xs as [| y ys IH]; intros a; simpl; [split; [lia | split; [tauto | auto]] |].
  destruct (IH (Z.min a y)) as [H1 [H2 H3]]. split; [lia | split].
  - intros x [<- | Hx]; [lia | auto].
  - destruct H3 as [H3 | H3]; [| auto].
    rewrite H3. destruct (Z.min_spec a y) as [[_ ->] | [_ ->]]; auto.
Qed.

Lemma fold_max_spec (xs : list Z) : forall a,
  a <= fold_left Z.max xs a /\ (forall x, In x xs -> x <= fold_left Z.max xs a) /\
  (fold_left Z.max xs a = a \/ In (fold_left Z.max xs a) xs).
Proof.
  induction xs as [| y ys IH]; intros a; simpl; [split; [lia | split; [tauto | auto]] |].
  destruct (IH (Z.max a y)) as [H1 [H2 H3]]. split; [lia | split].
  - intros x [<- | Hx]; [lia | auto].
  - destruct H3 as [H3 | H3]; [| auto].
    rewrite H3. destruct (Z.max_spec a y) as [[_ ->] | [_ ->]]; auto.
Qed.

Lemma sum_Z_bounds (l : list Z) (m M : Z) :
  (forall x, In x l -> m <= x <= M) ->
  Z.of_nat (length l) * m <= sum_Z l <= Z.of_nat (length l) * M.
Proof.
  induction l as [| x l IH]; intros H; [simpl; lia |].
  assert (m <= x <= M) by (apply H; left; reflexivity).
  assert (Z.of_nat (length l) * m <= sum_Z l <= Z.of_nat (length l) * M)
    by (apply IH; intros y Hy; apply H; right; exact Hy).
  change (sum_Z (x :: l)) with (x + sum_Z l). cbn [length].
  rewrite Nat2Z.inj_succ. nia.
Qed.

Lemma py_truediv_pos (a b : Z) (x : Q) :
  0 < b -> py_truediv a b = Ok x -> round64 (inject_Z a / inject_Z b) = Finite x.
Proof.
  intros Hb. unfold py_truediv.
  replace (b =? 0) with false by (symmetry; apply Z.eqb_neq; lia).
  destruct (round64 _) as [y | | ]; intros H; [injection H as <-; reflexivity | |];
    discriminate.
Qed.

Lemma py_truediv_fin (a b : Z) (x : Q) :
  0 < b -> round64 (inject_Z a / inject_Z b) = Finite x -> py_truediv a b = Ok x.
Proof.
  intros Hb E. unfold py_truediv.
  replace (b =? 0) with false by (symmetry; apply Z.eqb_neq; lia).
  rewrite E. reflexivity.
Qed.

Lemma qdiv_bounds_Z (a b lo hi : Z) :
  0 < b -> b * lo <= a <= b * hi ->
  (inject_Z lo <= inject_Z a / inject_Z b <= inject_Z hi)%Q.
Proof.
  intros Hb H. assert (Hb' : (0 < inject_Z b)%Q) by (apply (proj1 (Zlt_Q 0 b)); exact Hb).
  split; [apply Qle_shift_div_l | apply Qle_shift_div_r]; try exact Hb'.
  - assert (X : (inject_Z lo * inject_Z b == inject_Z (lo * b))%Q)
      by (rewrite inject_Z_mult; reflexivity).
    rewrite X. apply (proj1 (Zle_Q _ _)). lia.
  - assert (X : (inject_Z hi * inject_Z b == inject_Z (hi * b))%Q)
      by (rewrite inject_Z_mult; reflexivity).
    rewrite X. apply (proj1 (Zle_Q _ _)). lia.
Qed.

Lemma bankrupt_prob_inv (outcome : list Z) (bc : Z) (rep : report) :
  bankrupt_prob outcome bc = Ok rep ->
  exists x a,
    0 < Z.of_nat (length outcome) /\
    py_truediv (100 * bc) (Z.of_nat (length outcome)) = Ok x /\
    py_round1 x = Ok (odds rep) /\
    py_truediv (sum_Z outcome) (Z.of_nat (length outcome)) = Ok a /\
    average_outcome rep = trunc a /\
    py_min outcome = Ok (minimum_outcome rep) /\ py_max outcome = Ok (maximum_outcome rep).
Proof.
  unfold bankrupt_prob.
  destruct (py_truediv (100 * bc) _) as [x |] eqn:Ex; [| discriminate]. cbn [bind].
  destruct (py_round1 x) as [o |] eqn:Eo; [| discriminate]. cbn [bind].
  destruct (py_truediv (sum_Z outcome) _) as [a |] eqn:Ea; [| discriminate]. cbn [bind].
  destruct (py_min outcome) as [mn |] eqn:Emn; [| discriminate]. cbn [bind].
  destruct (py_max outcome) as [mx |] eqn:Emx; [| discriminate]. cbn [bind].
  intros H. injection H as <-. exists x, a. cbn [odds average_outcome minimum_outcome maximum_outcome].
  split; [| auto 7].
  unfold py_truediv in Ex. destruct (Z.of_nat (length outcome) =? 0) eqn:Hz; [discriminate |].
  apply Z.eqb_neq in Hz. lia.
Qed.

(** `100 * bankrupt_count / total` is a double of [0, 100] within 2^-46 of
    the exact quotient. *)
Lemma odds_quotient (bc n : Z) :
  0 <= bc <= n -> 0 < n ->
  exists x, py_truediv (100 * bc) n = Ok x /\ round64 (inject_Z (100 * bc) / inject_Z n) = Finite x /\
    (0 <= x <= 100)%Q /\
    (inject_Z (100 * bc) / inject_Z n - pow2 (-46) <= x <=
     inject_Z (100 * bc) / inject_Z n + pow2 (-46))%Q.
Proof.
  intros Hbc Hn. set (q := (inject_Z (100 * bc) / inject_Z n)%Q).
  assert (Hq : (inject_Z 0 <= q <= inject_Z 100)%Q) by (apply qdiv_bounds_Z; lia).
  destruct (round64_in 7 q ltac:(lia)) as [x [Ex [_ [S1 [_ B]]]]].
  { change (pow2 7) with (128 # 1). change (inject_Z 0) with 0%Q in Hq.
    change (inject_Z 100) with (100 # 1) in Hq. lra. }
  exists x. split; [apply py_truediv_fin; assumption | split; [exact Ex | split]].
  - split; [apply S1, Hq |].
    apply (round64_mono q (inject_Z 100) x (inject_Z 100)); [apply Hq | exact Ex |].
    apply round64_int. lia.
  - change (7 - 53) with (-46) in B. exact B.
Qed.

(** `round(x, 1)` for x in [0, 100]: a double of [0, 100] within
    1/20 + 2^-46 of x. *)
Lemma py_round1_range (x : Q) :
  (0 <= x <= 100)%Q ->
  exists o, py_round1 x = Ok o /\ (0 <= o <= 100)%Q /\
    (x - (1 # 20) - pow2 (-46) <= o <= x + (1 # 20) + pow2 (-46))%Q.
Proof.
  intros Hx. unfold py_round1.
  pose proof (round_half_even_bounds (x * 10)) as B.
  set (k := round_half_even (x * 10)) in *.
  assert (Hk : 0 <= k <= 1000).
  { split.
    - destruct (Z_lt_le_dec k 0) as [H | H]; [exfalso | exact H].
      assert (inject_Z k <= -1)%Q by (unfold Qle; simpl; lia). lra.
    - destruct (Z_le_gt_dec k 1000) as [H | H]; [exact H | exfalso].
      assert (1001 <= inject_Z k)%Q by (unfold Qle; simpl; lia). lra. }
  change (inject_Z k / 10)%Q with (inject_Z k * (1 # 10))%Q.
  assert (Hk' : (0 <= inject_Z k <= 1000)%Q)
    by (split; unfold Qle; simpl; lia).
  destruct (round64_in 7 (inject_Z k * (1 # 10)) ltac:(lia)) as [o [Eo [_ [S1 [_ Bo]]]]].
  { change (pow2 7) with (128 # 1). lra. }
  rewrite Eo. exists o. split; [reflexivity | split; [split |]].
  - apply S1. lra.
  - apply (round64_mono (inject_Z k * (1 # 10)) (inject_Z 100) o (inject_Z 100));
      [change (inject_Z 100) with (100 # 1); lra | exact Eo | apply round64_int; lia].
  - change (7 - 53) with (-46) in Bo. lra.
Qed.

Lemma trunc_lt_succ (x : Q) (m : Z) : 0 <= m -> (x < inject_Z (m + 1))%Q -> trunc x <= m.
Proof.
  intros Hm Hx. destruct (Z_lt_le_dec 0 (trunc x)) as [Hp | Hn]; [| lia].
  pose proof (trunc_le_pos x Hp).
  assert (inject_Z (trunc x) < inject_Z (m + 1))%Q by (eapply Qle_lt_trans; eauto).
  apply (proj2 (Zlt_Q _ _)) in H0. lia.
Qed.

(** For 0 <= s < 2^53, `int(s / n)` is the floor of the exact quotient. *)
Lemma round_floor_div (s n : Z) (a : Q) :
  0 <= s < 2 ^ 53 -> 0 < n ->
  round64 (inject_Z s / inject_Z n) = Finite a -> trunc a = s / n.
Proof.
  intros Hs Hn E.
  assert (Hn' : (0 < inject_Z n)%Q) by (apply (proj1 (Zlt_Q 0 n)); exact Hn).
  set (t := (inject_Z s / inject_Z n)%Q) in *.
  set (k := s / n).
  assert (Hk : 0 <= k) by (apply Z.div_pos; lia).
  assert (Hk1 : n * k <= s < n * (k + 1)).
  { pose proof (Z.div_mod s n ltac:(lia)). pose proof (Z.mod_pos_bound s n Hn).
    unfold k. lia. }
  assert (Ht0 : (0 <= t)%Q).
  { pose proof (qdiv_bounds_Z s n 0 s Hn ltac:(nia)) as [H _]. exact H. }
  assert (Htn : (t * inject_Z n == inject_Z s)%Q).
  { unfold t. field. intros H. rewrite H in Hn'. discriminate. }
  apply Z.le_antisymm.
  - apply trunc_lt_succ; [exact Hk |].
    destruct (round64_fin_val t a E) as [[Tp [Ea _]] | [[Tn _] | [_ Ea]]].
    + rewrite Ea.
      assert (Hrv : (round_value t * inject_Z n < inject_Z (k + 1) * inject_Z n)%Q).
      { destruct (fexp_spec t Tp) as [F1 [F2 | F2]].
        - rewrite F2 in F1. pose proof (round_value_le (-1021) t ltac:(lia) Tp
                                        (Qlt_le_weak _ _ F1)) as R.
          assert (P : (pow2 (-1021) < 1)%Q)
            by (change 1%Q with (pow2 0); apply pow2_lt; lia).
          apply Qmult_lt_r; [exact Hn' |].
          assert (1 <= inject_Z (k + 1))%Q by (unfold Qle; simpl; lia). lra.
        - pose proof (round_value_error t Tp) as [_ R].
          set (P := pow2 (-53)).
          assert (PP : (0 < P)%Q) by apply pow2_pos.
          assert (X1 : (pow2 (fexp t - 1) == pow2 (fexp t + 52) * P)%Q).
          { unfold P. rewrite <- pow2_add. replace (fexp t + 52 + -53)%Z with (fexp t - 1)%Z
              by lia. reflexivity. }
          assert (X2 : (pow2 (fexp t - 1) <= t * P)%Q)
            by (rewrite X1; apply Qmult_le_compat_r; [exact F2 | apply Qlt_le_weak, PP]).
          assert (X3 : (inject_Z s * P < 1)%Q).
          { assert (Y : (inject_Z (2 ^ 53) * P == 1)%Q).
            { unfold P. rewrite <- pow2_Z by lia. rewrite <- pow2_add. reflexivity. }
            rewrite <- Y. apply Qmult_lt_r; [exact PP |]. apply (proj1 (Zlt_Q _ _)). lia. }
          assert (X4 : (inject_Z s + 1 <= inject_Z (k + 1) * inject_Z n)%Q).
          { rewrite <- inject_Z_mult. change 1%Q with (inject_Z 1). rewrite <- inject_Z_plus.
            apply (proj1 (Zle_Q _ _)). lia. }
          assert (X5 : ((t + t * P) * inject_Z n == inject_Z s + inject_Z s * P)%Q).
          { rewrite <- Htn. ring. }
          assert (X6 : (round_value t * inject_Z n <= (t + t * P) * inject_Z n)%Q)
            by (apply Qmult_le_compat_r; [lra | apply Qlt_le_weak, Hn']).
          lra. }
      apply Qmult_lt_r in Hrv; [exact Hrv | exact Hn'].
    + lra.
    + rewrite Ea. apply (proj1 (Zlt_Q 0 (k + 1))). lia.
  - apply trunc_lower.
    assert (Hki : round64 (inject_Z k) = Finite (inject_Z k)) by (apply round64_int; nia).
    apply (round64_mono (inject_Z k) t _ _); [| exact Hki | exact E].
    pose proof (qdiv_bounds_Z s n k s Hn ltac:(nia)) as [H _]. exact H.
Qed.

(** `sum(outcome) / total` with elements of magnitude at most 2^j. *)
Lemma average_fin (outcome : list Z) (j : Z) :
  outcome <> [] -> 0 <= j <= 1023 -> (forall x, In x outcome -> Z.abs x <= 2 ^ j) ->
  exists a, py_truediv (sum_Z outcome) (Z.of_nat (length outcome)) = Ok a.
Proof.
  intros Hne Hj Hx.
  assert (Hn : 0 < Z.of_nat (length outcome)) by (destruct outcome; [congruence | simpl; lia]).
  pose proof (sum_Z_bounds outcome (- 2 ^ j) (2 ^ j)
                (fun x H => proj1 (Z.abs_le x (2 ^ j)) (Hx x H)))
    as Hs.
  pose proof (qdiv_bounds_Z (sum_Z outcome) _ (- 2 ^ j) (2 ^ j) Hn ltac:(lia)) as B.
  rewrite inject_Z_opp, <- pow2_Z in B by lia.
  destruct (round64_in j _ Hj B) as [a [Ea _]].
  exists a. apply py_truediv_fin; assumption.
Qed.

Lemma average_between (outcome : list Z) (m M : Z) (a : Q) :
  outcome <> [] -> Z.abs m <= 2 ^ 53 -> Z.abs M <= 2 ^ 53 ->
  (forall x, In x outcome -> m <= x <= M) ->
  py_truediv (sum_Z outcome) (Z.of_nat (length outcome)) = Ok a ->
  m <= trunc a <= M.
Proof.
  intros Hne Hm HM Hx E.
  assert (Hn : 0 < Z.of_nat (length outcome)) by (destruct outcome; [congruence | simpl; lia]).
  pose proof (sum_Z_bounds outcome m M Hx) as Hs.
  pose proof (qdiv_bounds_Z (sum_Z outcome) _ m M Hn ltac:(lia)) as [B1 B2].
  pose proof (py_truediv_pos _ _ _ Hn E) as Ea.
  split; [apply trunc_lower | apply trunc_upper].
  - exact (round64_mono _ _ _ _ B1 (round64_int m Hm) Ea).
  - exact (round64_mono _ _ _ _ B2 Ea (round64_int M HM)).
Qed.

Lemma bankrupt_prob_ok (outcome : list Z) (bc : Z) :
  outcome <> [] -> 0 <= bc <= Z.of_nat (length outcome) ->
  (forall x, In x outcome -> Z.abs x <= 2 ^ 1023) ->
  exists rep, bankrupt_prob outcome bc = Ok rep.
Proof.
  intros Hne Hbc Hx.
  assert (Hn : 0 < Z.of_nat (length outcome)) by (destruct outcome; [congruence | simpl; lia]).
  destruct (odds_quotient bc _ Hbc Hn) as [x [Ex [_ [Hx100 _]]]].
  destruct (py_round1_range x Hx100) as [o [Eo _]].
  destruct (average_fin outcome 1023 Hne ltac:(lia) Hx) as [a Ea].
  unfold bankrupt_prob. rewrite Ex. cbn [bind]. rewrite Eo. cbn [bind]. rewrite Ea. cbn [bind].
  destruct outcome as [| y ys]; [congruence |]. cbn [py_min py_max bind].
  eexists. reflexivity.
Qed.

Lemma count_zeros_pos (l : list Z) : 0 < count_zeros l <-> In 0 l.
Proof.
  unfold count_zeros. split.
  - intros H. destruct (filter (fun x => x =? 0) l) as [| y ys] eqn:E; [simpl in H; lia |].
    assert (Hy : In y (filter (fun x => x =? 0) l)) by (rewrite E; left; reflexivity).
    apply filter_In in Hy as [Hy Hz]. apply Z.eqb_eq in Hz. subst y. exact Hy.
  - intros H. assert (Hf : In 0 (filter (fun x => x =? 0) l)) by (apply filter_In; auto).
    destruct (filter (fun x => x =? 0) l); [destruct Hf | simpl; lia].
Qed.

(** * Further lemmas on the loops *)

Lemma year_loop_mono (W W' : Z) (li : list Q) (lr : list Q) :
  W' <= W ->
  (forall x, In x lr -> (-1 <= x)%Q) -> (forall x, In x li -> (-1 <= x)%Q) ->
  forall index wadj wadj' inv inv' b,
    wadj' <= wadj -> inv <= inv' ->
    year_loop W li index wadj inv lr = Ok (b, false) ->
    (exists b', year_loop W' li index wadj' inv' lr = Ok (b', false) /\ b <= b') \/
    year_loop W' li index wadj' inv' lr = Err OverflowError.
Proof.
  intros HW Hr Hi. induction lr as [| x rest IH];
    intros index wadj wadj' inv inv' b Hw Hv E.
  - cbn in E |- *. injection E as <-. left. eexists. split; [reflexivity | exact Hv].
  - cbn [year_loop] in E |- *.
    destruct (py_getitem li (Z.of_nat index)) as [infl |] eqn:Ei; [| discriminate].
    cbn [bind] in E |- *.
    pose proof (Hi _ (py_getitem_in _ _ _ Ei)) as Hinfl.
    pose proof (Hr x (or_introl eq_refl)) as Hx.
    destruct (next_withdrawal W index wadj infl) as [w |] eqn:Ew; [| discriminate].
    cbn [bind] in E.
    assert (Hw' : (exists w', next_withdrawal W' index wadj' infl = Ok w' /\ w' <= w) \/
                  next_withdrawal W' index wadj' infl = Err OverflowError).
    { unfold next_withdrawal in Ew |- *. destruct (Nat.eqb index 0).
      - injection Ew as <-. left. eexists. split; [reflexivity | exact HW].
      - destruct (int_mul_1p_ok_or_overflow wadj wadj' infl w Ew) as [[w' Ew'] | Eo];
          [left | right; exact Eo].
        exists w'. split; [exact Ew' |].
        exact (int_mul_1p_mono wadj' wadj infl w' w Hw Hinfl Ew' Ew). }
    destruct Hw' as [[w' [Ew' Hww]] | Eo]; [| right; rewrite Eo; reflexivity].
    rewrite Ew'. cbn [bind].
    destruct (int_mul_1p (inv - w) x) as [b2 |] eqn:Eb; [| discriminate]. cbn [bind] in E.
    destruct (b2 <=? 0) eqn:Hb; [discriminate |]. apply Z.leb_gt in Hb.
    destruct (int_mul_1p_ok_or_overflow (inv - w) (inv' - w') x b2 Eb) as [[b2' Eb'] | Eo];
      [| right; rewrite Eo; reflexivity].
    pose proof (int_mul_1p_mono (inv - w) (inv' - w') x b2 b2' ltac:(lia) Hx Eb Eb') as Hbb.
    rewrite Eb'. cbn [bind].
    replace (b2' <=? 0) with false by (symmetry; apply Z.leb_gt; lia).
    apply (IH (fun y Hy => Hr y (or_intror Hy)) _ _ _ _ _ _ Hww Hbb E).
Qed.

Lemma year_loop_app_insolvent (W : Z) (li li2 : list Q) (lr lr2 : list Q) :
  forall index wadj inv v,
    year_loop W li index wadj inv lr = Ok (v, true) ->
    year_loop W (li ++ li2) index wadj inv (lr ++ lr2) = Ok (v, true).
Proof.
  induction lr as [| x rest IH]; intros index wadj inv v E; [discriminate |].
  cbn [year_loop app] in E |- *.
  destruct (py_getitem li (Z.of_nat index)) as [infl |] eqn:Ei; [| discriminate].
  rewrite (py_getitem_nth _ _ infl)
    by (rewrite nth_error_app1; [apply py_getitem_nth_inv; exact Ei
        | apply nth_error_Some; rewrite (py_getitem_nth_inv _ _ _ Ei); discriminate]).
  cbn [bind] in E |- *.
  destruct (next_withdrawal W index wadj infl) as [w |]; [| discriminate].
  cbn [bind] in E |- *.
  destruct (int_mul_1p (inv - w) x) as [b2 |]; [| discriminate].
  cbn [bind] in E |- *.
  destruct (b2 <=? 0); [exact E | apply IH; exact E].
Qed.

Lemma year_loop_zero_rates (W : Z) (li : list Q) (lr : list Q) :
  0 < W <= 2 ^ 53 -> (forall x, In x lr -> x = 0%Q) -> (forall x, In x li -> x = 0%Q) ->
  forall index wadj inv,
    (index = 0%nat \/ wadj = W) -> 0 < inv <= 2 ^ 53 -> (index + length lr <= length li)%nat ->
    year_loop W li index wadj inv lr =
      if Z.of_nat (length lr) * W <? inv
      then Ok (inv - Z.of_nat (length lr) * W, false)
      else Ok (inv - ((inv + W - 1) / W) * W, true).
Proof.
  intros HW Hr Hi. induction lr as [| x rest IH]; intros index wadj inv Hw Hv Hlen.
  - simpl. replace (0 <? inv) with true by (symmetry; apply Z.ltb_lt; lia).
    rewrite Z.sub_0_r. reflexivity.
  - simpl length in Hlen |- *. cbn [year_loop].
    rewrite (py_getitem_nth _ _ (nth index li 0%Q)) by (apply nth_error_nth'; lia).
    cbn [bind].
    assert (Hz : nth index li 0%Q = 0%Q) by (apply Hi, nth_In; lia).
    rewrite Hz, (Hr x (or_introl eq_refl)).
    assert (Hn : next_withdrawal W index wadj 0 = Ok W).
    { unfold next_withdrawal. destruct Hw as [-> | ->]; [reflexivity |].
      destruct (Nat.eqb index 0); [reflexivity | apply int_mul_1p_zero; lia]. }
    rewrite Hn. cbn [bind]. rewrite int_mul_1p_zero by lia. cbn [bind].
    destruct (Z_le_gt_dec (inv - W) 0) as [Hle | Hgt].
    + replace (inv - W <=? 0) with true by (symmetry; apply Z.leb_le; lia).
      replace (Z.of_nat (S (length rest)) * W <? inv) with false
        by (symmetry; apply Z.ltb_ge; nia).
      replace ((inv + W - 1) / W) with 1; [f_equal; f_equal; lia |].
      apply Z.div_unique with (r := inv - 1); lia.
    + replace (inv - W <=? 0) with false by (symmetry; apply Z.leb_gt; lia).
      rewrite (IH (fun y Hy => Hr y (or_intror Hy)) (S index) W (inv - W))
        by (auto || lia).
      replace (Z.of_nat (S (length rest)) * W <? inv)
        with (Z.of_nat (length rest) * W <? inv - W)
        by (destruct (Z.of_nat (length rest) * W <? inv - W) eqn:E1;
            symmetry; [apply Z.ltb_lt in E1 | apply Z.ltb_ge in E1];
            [apply Z.ltb_lt | apply Z.ltb_ge]; lia).
      destruct (_ <? _); [f_equal; f_equal; lia |].
      replace (inv + W - 1) with ((inv - W + W - 1) + 1 * W) by lia.
      rewrite Z.div_add by lia. f_equal. f_equal. lia.
Qed.

Lemma report_min_max (outcome : list Z) (bc : Z) (rep : report) :
  bankrupt_prob outcome bc = Ok rep ->
  In (minimum_outcome rep) outcome /\ (forall x, In x outcome -> minimum_outcome rep <= x) /\
  In (maximum_outcome rep) outcome /\ (forall x, In x outcome -> x <= maximum_outcome rep).
Proof.
  intros E. destruct (bankrupt_prob_inv _ _ _ E) as [x [a [Hn [_ [_ [_ [_ [Hmin Hmax]]]]]]]].
  destruct outcome as [| o os]; [discriminate |].
  cbn [py_min py_max] in Hmin, Hmax. injection Hmin as Hmin. injection Hmax as Hmax.
  destruct (fold_min_spec os o) as [M1 [M2 M3]].
  destruct (fold_max_spec os o) as [X1 [X2 X3]].
  rewrite Hmin in M1, M2, M3. rewrite Hmax in X1, X2, X3.
  split; [destruct M3 as [-> | H]; [left; reflexivity | right; exact H] |].
  split; [intros y [<- | Hy]; [exact M1 | auto] |].
  split; [destruct X3 as [-> | H]; [left; reflexivity | right; exact H] |].
  intros y [<- | Hy]; [exact X1 | auto].
Qed.

Lemma count_insolvent_le (results : list (Z * bool)) :
  0 <= count_insolvent results <= Z.of_nat (length results).
Proof.
  unfold count_insolvent. induction results as [| r rs IH]; [simpl; lia |].
  simpl filter. destruct (snd r); simpl length; lia.
Qed.

(** ** Console input *)

Lemma digit_loop_isdigit (u : unicode_db) (later : list str) :
  forall x y, digit_loop u x later = Some y -> py_isdigit u y = true.
Proof.
  induction later as [|z zs IH]; intros x y H; simpl in H.
  - destruct (py_isdigit u x) eqn:E; [injection H as <-; exact E | discriminate].
  - destruct (py_isdigit u x) eqn:E; [injection H as <-; exact E | exact (IH z y H)].
Qed.

Lemma py_isdigit_chars (u : unicode_db) (s : str) :
  py_isdigit u s = true -> s <> [] /\ forall c, In c s -> is_digit_char u c = true.
Proof.
  destruct s as [|c r]; [discriminate |]. intros H.
  split; [discriminate |]. apply forallb_forall. exact H.
Qed.

Lemma drop_spaces_id (u : unicode_db) (s : str) :
  (forall c, In c s -> is_space_char u c = false) -> drop_spaces u s = s.
Proof.
  destruct s as [|c r]; intros H; [reflexivity |].
  simpl. rewrite (H c (or_introl eq_refl)). reflexivity.
Qed.

Lemma py_strip_id (u : unicode_db) (s : str) :
  (forall c, In c s -> is_space_char u c = false) -> py_strip u s = s.
Proof.
  intros H. unfold py_strip. rewrite (drop_spaces_id u s H), drop_spaces_id.
  - apply rev_involutive.
  - intros c Hc. apply H, in_rev. exact Hc.
Qed.

Lemma py_int_unsigned (u : unicode_db) (m c : Z) (r : str) :
  py_strip u (c :: r) = c :: r -> c <> 45 -> c <> 43 ->
  py_int u m (c :: r) =
    match parse_digits u 0 true (c :: r) with
    | Some v => if (0 <? m) && (m <? count_digits u (c :: r)) then Err ValueError else Ok v
    | None => Err ValueError
    end.
Proof.
  intros Hs H45 H43. unfold py_int. rewrite Hs.
  rewrite (proj2 (Z.eqb_neq c 45) H45), (proj2 (Z.eqb_neq c 43) H43).
  reflexivity.
Qed.

Lemma count_digits_decimal (u : unicode_db) (s : str) :
  (forall c, In c s -> decimal_value u c <> None) -> count_digits u s = Z.of_nat (length s).
Proof.
  intros H. unfold count_digits. f_equal.
  induction s as [| c r IH]; [reflexivity |]. simpl.
  destruct (decimal_value u c) eqn:E; [| exfalso; exact (H c (or_introl eq_refl) E)].
  simpl. f_equal. apply IH. intros c' Hc'. apply H. right. exact Hc'.
Qed.

Lemma parse_digits_decimal (u : unicode_db) (s : str) :
  forall acc after,
    (forall c, In c s -> decimal_value u c <> None) ->
    (s <> [] \/ after = false) ->
    parse_digits u acc after s =
    Some (fold_left (fun acc c => acc * 10 + match decimal_value u c with
                                             | Some d => d
                                             | None => 0
                                             end) s acc).
Proof.
  induction s as [|c r IH]; intros acc after Hdec Hne; simpl.
  - destruct Hne as [Hne | ->]; [congruence | reflexivity].
  - destruct (decimal_value u c) as [d|] eqn:E.
    + apply IH; [intros c' Hc'; apply Hdec; right; exact Hc' | right; reflexivity].
    + exfalso. exact (Hdec c (or_introl eq_refl) E).
Qed.

Lemma parse_digits_non_decimal (u : unicode_db) (s : str) :
  forall acc after,
    (forall c, In c s -> c <> 95) ->
    (exists c, In c s /\ decimal_value u c = None) ->
    parse_digits u acc after s = None.
Proof.
  induction s as [|c r IH]; intros acc after H95 [c' [Hin Hc']]; [destruct Hin |].
  simpl. destruct (decimal_value u c) as [d|] eqn:E.
  - apply IH; [intros x Hx; apply H95; right; exact Hx |].
    destruct Hin as [<- | Hin]; [congruence | exists c'; split; assumption].
  - rewrite (proj2 (Z.eqb_neq c 95) (H95 c (or_introl eq_refl))). reflexivity.
Qed.

Lemma decimal_number_nonneg (u : unicode_db) (s : str) :
  (forall c v, decimal_value u c = Some v -> 0 <= v) ->
  forall acc, 0 <= acc ->
  0 <= fold_left (fun acc c => acc * 10 + match decimal_value u c with
                                         | Some d => d
                                         | None => 0
                                         end) s acc.
Proof.
  intros Hdec. induction s as [|c r IH]; intros acc Hacc; simpl; [exact Hacc |].
  apply IH. destruct (decimal_value u c) as [d|] eqn:E; [pose proof (Hdec c d E) |]; lia.
Qed.

Lemma type_loop_mem {V : Type} (d : list (str * V)) (later : list str) :
  forall x t, type_loop d x later = Some t -> dict_mem d t = true.
Proof.
  induction later as [|z zs IH]; intros x t H; simpl in H.
  - destruct (dict_mem d x) eqn:E; [injection H as <-; exact E | discriminate].
  - destruct (dict_mem d x) eqn:E; [injection H as <-; exact E | exact (IH z t H)].
Qed.

Lemma dict_get_mem {V : Type} (d : list (str * V)) (k : str) :
  dict_mem d k = true -> exists v, dict_get d k = Some v /\ In (k, v) d.
Proof.
  intros H. unfold dict_mem in H. apply existsb_exists in H as [kv [Hin Hk]].
  unfold dict_get.
  destruct (find (fun kv => str_eqb (fst kv) k) d) as [[k' v]|] eqn:E.
  - apply find_some in E as [Hin' Hk']. simpl in Hk'.
    unfold str_eqb in Hk'. destruct (list_eq_dec Z.eq_dec k' k) as [-> |]; [| discriminate].
    exists v. split; [reflexivity | exact Hin'].
  - exfalso. pose proof (find_none _ _ E kv Hin) as Hf. congruence.
Qed.

(** * Claims *)

(** ** The yearly recurrence (C1) *)

(** C1 (counterexample): the products of lines 146 and 150 are computed in
    binary64 floating point.  With W0 = 80,000 and a second year of inflation
    0.003, `int(80000 * (1 + 0.003))` is 80,239 in the program, where the
    recurrence in exact arithmetic gives 80,240; the final balances differ
    by one (839,761 against 839,760). *)
Lemma float_withdrawal_rounding :
  spec_trace exact_mul 80000 1000000 true [(0%Q, 0%Q); (0%Q, dbl (3 # 1000))] =
    Ok [(80000, 920000, 920000); (80240, 839760, 839760)] /\
  spec_trace int_mul_1p 80000 1000000 true [(0%Q, 0%Q); (0%Q, dbl (3 # 1000))] =
    Ok [(80000, 920000, 920000); (80239, 839761, 839761)] /\
  spec_solvency exact_mul 1000000 80000 [(0%Q, 0%Q); (0%Q, dbl (3 # 1000))] = Ok (839760, false) /\
  year_loop 80000 [0%Q; dbl (3 # 1000)] 0 0 1000000 [0%Q; 0%Q] = Ok (839761, false).
Proof. vm_compute. repeat split. Qed.

(** C1 (amended): on the paired return and inflation lists of a trial, the
    year loop starts from balance V0 and follows the recurrence of the spec
    with each product `int(n * (1 + r))` computed as the program does: n is
    converted to the nearest double, 1 + r is rounded to a double, their
    product is rounded to a double and truncated toward zero.  For |n| <= 2^1022
    and -1 <= r <= 1 this never overflows.  For V0 = 2,000,000, W0 = 80,000
    and one year with return 0.10 and inflation 0.0, the withdrawal is
    80,000, the balance 1,920,000 after it and 2,112,000 after growth, and the
    trial is solvent. *)
Theorem year_loop_recurrence :
  (forall (V0 W0 : Z) (years : list (Q * Q)),
     (r <- year_loop W0 (map snd years) 0 0 V0 (map fst years) ;; Ok (recorded r, snd r)) =
     spec_solvency int_mul_1p V0 W0 years) /\
  (forall (n : Z) (rate : Q), Z.abs n <= 2 ^ 1022 -> (-1 <= rate <= 1)%Q ->
     int_mul_1p n rate = Ok (trunc (dbl (dbl (inject_Z n) * dbl (1 + rate))))) /\
  spec_trace int_mul_1p 80000 2000000 true [(dbl (1 # 10), 0%Q)] =
    Ok [(80000, 1920000, 2112000)] /\
  spec_solvency int_mul_1p 2000000 80000 [(dbl (1 # 10), 0%Q)] = Ok (2112000, false) /\
  year_loop 80000 [0%Q] 0 0 2000000 [dbl (1 # 10)] = Ok (2112000, false).
Proof.
  split; [| split; [| split; [| split]]].
  - intros V0 W0 years. apply (year_loop_spec W0 years [] 0 V0).
  - intros n rate Hn Hr.
    destruct (int_mul_1p_bound n rate 1022 ltac:(lia) Hn Hr)
      as [x [y [z [Ex [Ey [Ez [E _]]]]]]].
    assert (Dx : dbl (inject_Z n) = x) by (unfold dbl; rewrite Ex; reflexivity).
    assert (Dy : dbl (1 + rate) = y) by (unfold dbl; rewrite Ey; reflexivity).
    assert (Dz : dbl (x * y) = z) by (unfold dbl; rewrite Ez; reflexivity).
    rewrite Dx, Dy, Dz. exact E.
  - vm_compute. reflexivity.
  - vm_compute. reflexivity.
  - vm_compute. reflexivity.
Qed.

(** ** Insolvency (C2) *)

(** C2 (counterexample): the input check accepts start value 0 with
    min_years = 0; a trial whose triangular draw lies in [0, 1) has no year,
    records outcome 0 and is not flagged insolvent, and the run reports
    outcome [0] with bankrupt_count 0. *)
Lemma zero_outcome_not_insolvent :
  let p := mkParams 0 80000 0 1 2 1 in
  years_ok p = true /\
  run_case p [1 # 10] [0%Q] (mkSample 0 (1 # 2)) = Ok (0, false) /\
  recorded (0, false) = 0 /\
  montecarlo p [1 # 10] [0%Q] (fun _ => mkSample 0 (1 # 2)) = Ok ([0], 0).
Proof. vm_compute. repeat split. Qed.

(** C2 (amended): when a year's growth step leaves the balance <= 0 the
    year loop stops there, whatever years remain, with insolvent = true, and
    otherwise it goes on to the next year; on the recurrence of a trial, the
    trial is solvent exactly when every post-growth balance is positive, a
    solvent trial has processed all its years and records the last balance,
    and an insolvent trial records 0 while its last balance is <= 0; the
    final balance of a solvent trial is positive, or is the starting value
    when the trial has no year; so with a positive starting value a trial
    records 0 exactly when it is insolvent. *)
Theorem trial_insolvency_flag :
  (forall (W : Z) (li : list Q) (index : nat) (wadj inv : Z) (i infl : Q) (rest : list Q)
          (w v : Z),
     py_getitem li (Z.of_nat index) = Ok infl ->
     next_withdrawal W index wadj infl = Ok w ->
     int_mul_1p (inv - w) i = Ok v ->
     (v <= 0 -> year_loop W li index wadj inv (i :: rest) = Ok (v, true)) /\
     (0 < v -> year_loop W li index wadj inv (i :: rest) = year_loop W li (S index) w v rest)) /\
  (forall (V0 W0 : Z) (years : list (Q * Q)) (lines : list (Z * Z * Z)) (r : Z * bool),
     spec_trace int_mul_1p W0 V0 true years = Ok lines ->
     year_loop W0 (map snd years) 0 0 V0 (map fst years) = Ok r ->
     (snd r = false <-> Forall (fun l : Z * Z * Z => 0 < snd l) lines) /\
     (snd r = false -> length lines = length years /\ recorded r = last (map snd lines) V0) /\
     (snd r = true -> recorded r = 0 /\ last (map snd lines) V0 <= 0)) /\
  (forall p returns infl_rate s r,
     run_case p returns infl_rate s = Ok r -> snd r = false ->
     recorded r = fst r /\
     ((duration_of s <= 0 /\ fst r = start_value p) \/ (0 < duration_of s /\ 0 < fst r))) /\
  (forall p returns infl_rate s r,
     0 < start_value p -> run_case p returns infl_rate s = Ok r ->
     (recorded r = 0 <-> snd r = true)).
Proof.
  split; [| split; [| split]].
  - intros W li index wadj inv i infl rest w v Hi Hw Hv.
    cbn [year_loop]. rewrite Hi. cbn [bind]. rewrite Hw. cbn [bind]. rewrite Hv. cbn [bind].
    split; intros Hs.
    + apply Z.leb_le in Hs. rewrite Hs. reflexivity.
    + replace (v <=? 0) with false by (symmetry; apply Z.leb_gt; exact Hs). reflexivity.
  - intros V0 W0 years lines r Ht Er.
    destruct (year_loop_trace W0 years [] 0 V0 lines r Ht Er) as [T1 [T2 T3]].
    destruct (year_loop_outcome W0 (map snd years) (map fst years) 0 0 V0 r Er) as [O1 _].
    split; [exact T1 | split].
    + intros Hs. split; [exact (T2 Hs) |]. unfold recorded. rewrite Hs. exact T3.
    + intros Hs. unfold recorded. rewrite Hs. split; [reflexivity |].
      rewrite <- T3. exact (O1 Hs).
  - intros p R I s r E Hs. unfold recorded. rewrite Hs. split; [reflexivity |].
    destruct (run_case_outcome _ _ _ _ _ E) as [_ H2]. exact (H2 Hs).
  - intros p R I s r Hv E. exact (recorded_zero_iff _ _ _ _ _ Hv E).
Qed.

(** ** Duration and year lists (C3, C4) *)

(** C4: the duration of a trial is the triangular draw truncated toward
    zero, and for every draw in [min_years, max_years] it is an integer of
    [min_years, max_years]. *)
Theorem duration_in_bounds (p : params) (s : sample) :
  (inject_Z (min_years p) <= triangular_draw s <= inject_Z (max_years p))%Q ->
  duration_of s = trunc (triangular_draw s) /\
  min_years p <= duration_of s <= max_years p.
Proof.
  intros [Hlo Hhi]. split; [reflexivity |].
  split; [apply trunc_lower | apply trunc_upper]; assumption.
Qed.

Lemma duration_in_bounds_witness :
  (inject_Z (min_years example_params) <= triangular_draw (mkSample 0 (553 # 20))
     <= inject_Z (max_years example_params))%Q /\
  duration_of (mkSample 0 (553 # 20)) = trunc (triangular_draw (mkSample 0 (553 # 20))) /\
  min_years example_params <= duration_of (mkSample 0 (553 # 20)) <= max_years example_params.
Proof.
  assert (H : (inject_Z (min_years example_params) <= triangular_draw (mkSample 0 (553 # 20))
     <= inject_Z (max_years example_params))%Q) by (split; vm_compute; discriminate).
  split; [exact H | apply (duration_in_bounds example_params (mkSample 0 (553 # 20))); exact H].
Defined.

(** C3: for start index s and duration d, the lists of a trial have d
    entries, the entry at offset j being series[(s + j) mod L] and
    infl_series[(s + j) mod L_infl]; for s = L - 1 and d = 2 the returns
    used are series[L-1] and series[0]. *)
Theorem trial_lists_wrap (returns infl_rate : list Q) (s d : Z) :
  (0 < length returns)%nat -> (0 < length infl_rate)%nat -> 0 <= s -> 0 <= d ->
  (exists lr li,
     build_lists returns infl_rate (py_range s (s + d)) [] [] = Ok (lr, li) /\
     length lr = Z.to_nat d /\ length li = Z.to_nat d /\
     forall j : nat, (j < Z.to_nat d)%nat ->
       nth_error lr j =
         nth_error returns (Z.to_nat ((s + Z.of_nat j) mod Z.of_nat (length returns))) /\
       nth_error li j =
         nth_error infl_rate (Z.to_nat ((s + Z.of_nat j) mod Z.of_nat (length infl_rate)))) /\
  (exists li,
     build_lists returns infl_rate
       (py_range (Z.of_nat (length returns) - 1) (Z.of_nat (length returns) - 1 + 2)) [] [] =
     Ok ([nth (length returns - 1) returns 0%Q; nth 0 returns 0%Q], li)).
Proof.
  intros Hr Hi Hs Hd. split.
  - rewrite build_lists_ok by assumption. simpl app.
    eexists _, _. split; [reflexivity |].
    rewrite !length_map, length_py_range.
    split; [reflexivity | split; [reflexivity |]].
    intros j Hj.
    rewrite !nth_error_map, nth_error_py_range by assumption. simpl option_map.
    unfold wrap_item.
    split; symmetry; apply nth_error_nth';
      match goal with |- (_ < length ?l)%nat =>
        pose proof (Z.mod_pos_bound (s + Z.of_nat j) (Z.of_nat (length l))) end; lia.
  - rewrite build_lists_ok by assumption. simpl app.
    eexists. f_equal. f_equal.
    unfold py_range. replace (Z.of_nat (length returns) - 1 + 2 -
                              (Z.of_nat (length returns) - 1)) with 2 by lia.
    simpl. unfold wrap_item.
    set (L := Z.of_nat (length returns)).
    rewrite Z.add_0_r, Z.mod_small by lia.
    replace (L - 1 + 1) with L by lia.
    rewrite Z.mod_same by lia.
    f_equal. f_equal. unfold L. lia.
Qed.

Lemma trial_lists_wrap_witness :
  (0 < length [1 # 10; 2 # 10; 3 # 10])%nat /\ (0 < length [0%Q; 1 # 100])%nat /\
  0 <= 2 /\ 0 <= 3 /\
  ((exists lr li,
     build_lists [1 # 10; 2 # 10; 3 # 10] [0%Q; 1 # 100] (py_range 2 (2 + 3)) [] [] = Ok (lr, li) /\
     length lr = Z.to_nat 3 /\ length li = Z.to_nat 3 /\
     forall j : nat, (j < Z.to_nat 3)%nat ->
       nth_error lr j = nth_error [1 # 10; 2 # 10; 3 # 10]
                          (Z.to_nat ((2 + Z.of_nat j) mod Z.of_nat 3)) /\
       nth_error li j = nth_error [0%Q; 1 # 100] (Z.to_nat ((2 + Z.of_nat j) mod Z.of_nat 2))) /\
   (exists li,
     build_lists [1 # 10; 2 # 10; 3 # 10] [0%Q; 1 # 100]
       (py_range (Z.of_nat 3 - 1) (Z.of_nat 3 - 1 + 2)) [] [] =
     Ok ([nth (3 - 1) [1 # 10; 2 # 10; 3 # 10] 0%Q; nth 0 [1 # 10; 2 # 10; 3 # 10] 0%Q], li))).
Proof.
  split; [simpl; lia | split; [simpl; lia | split; [lia | split; [lia |]]]].
  apply (trial_lists_wrap [1 # 10; 2 # 10; 3 # 10] [0%Q; 1 # 100] 2 3); simpl; lia.
Defined.

(** ** The trial loop (C5) *)

(** C5: when montecarlo completes (with a positive starting value), its
    outcome list has num_cases entries, entry j being the recorded outcome
    of trial j; bankrupt_count is the number of insolvent trials and also
    the number of zero entries of the outcome list.  It completes, without
    float overflow, when the series are non-empty with rates in [-1, 1], no
    trial lasts over 400 years and |V0|, |W0| <= 2^53. *)
Theorem montecarlo_invariants (p : params) (returns infl_rate : list Q)
    (rng : nat -> sample) :
  (forall outcome bankrupt_count,
     0 < start_value p ->
     montecarlo p returns infl_rate rng = Ok (outcome, bankrupt_count) ->
     exists results,
       length outcome = Z.to_nat (num_cases p) /\
       length results = Z.to_nat (num_cases p) /\
       (forall j r, nth_error results j = Some r ->
                    run_case p returns infl_rate (rng j) = Ok r) /\
       outcome = map recorded results /\
       bankrupt_count = count_insolvent results /\
       bankrupt_count = count_zeros outcome) /\
  ((0 < length returns)%nat -> (0 < length infl_rate)%nat ->
   (forall q, In q returns -> (-1 <= q <= 1)%Q) ->
   (forall q, In q infl_rate -> (-1 <= q <= 1)%Q) ->
   (forall k, duration_of (rng k) <= 400) ->
   Z.abs (start_value p) <= 2 ^ 53 -> Z.abs (withdrawal p) <= 2 ^ 53 ->
   exists outcome bankrupt_count,
     montecarlo p returns infl_rate rng = Ok (outcome, bankrupt_count)).
Proof.
  split.
  - intros out bc Hv E. unfold montecarlo in E.
    destruct (mc_loop_inv p returns infl_rate rng _ _ _ _ _ _ E)
      as [rs [Hlen [Hrs [Ho Hb]]]].
    simpl app in Ho. rewrite Z.add_0_l in Hb.
    exists rs. rewrite Ho. rewrite length_map.
    split; [exact Hlen | split; [exact Hlen | split]].
    + intros j r H. exact (Hrs j r H).
    + split; [reflexivity | split; [exact Hb |]].
      rewrite Hb. symmetry. exact (count_zeros_recorded p returns infl_rate rng 0 rs Hv Hrs).
  - intros Hr Hi Hrq Hiq Hd Hv HW. unfold montecarlo.
    apply mc_loop_ok. intros j _.
    destruct (run_case_no_overflow p returns infl_rate (rng (0 + j)%nat) Hr Hi Hrq Hiq
                (Hd _) Hv HW) as [r [Er _]].
    exists r. exact Er.
Qed.

Lemma montecarlo_invariants_witness :
  exists outcome bankrupt_count results,
    montecarlo example_params [1 # 10; (-3) # 10] [1 # 50; 1 # 20]
      (fun k => mkSample (Z.of_nat k) (30 # 1)) = Ok (outcome, bankrupt_count) /\
    length outcome = Z.to_nat (num_cases example_params) /\
    length results = Z.to_nat (num_cases example_params) /\
    (forall j r, nth_error results j = Some r ->
       run_case example_params [1 # 10; (-3) # 10] [1 # 50; 1 # 20]
         ((fun k => mkSample (Z.of_nat k) (30 # 1)) j) = Ok r) /\
    outcome = map recorded results /\
    bankrupt_count = count_insolvent results /\
    bankrupt_count = count_zeros outcome.
Proof.
  assert (Hr : forall q, In q [1 # 10; (-3) # 10] -> (-1 <= q <= 1)%Q)
    by (intros q [<- | [<- | []]]; split; vm_compute; discriminate).
  assert (Hi : forall q, In q [1 # 50; 1 # 20] -> (-1 <= q <= 1)%Q)
    by (intros q [<- | [<- | []]]; split; vm_compute; discriminate).
  destruct (proj2 (montecarlo_invariants example_params [1 # 10; (-3) # 10] [1 # 50; 1 # 20]
                     (fun k => mkSample (Z.of_nat k) (30 # 1)))
              ltac:(simpl; lia) ltac:(simpl; lia) Hr Hi
              ltac:(intros k; vm_compute; discriminate)
              ltac:(vm_compute; discriminate) ltac:(vm_compute; discriminate))
    as [o [b E]].
  destruct (proj1 (montecarlo_invariants example_params [1 # 10; (-3) # 10] [1 # 50; 1 # 20]
                     (fun k => mkSample (Z.of_nat k) (30 # 1))) o b ltac:(reflexivity) E)
    as [rs H].
  exists o, b, rs. split; [exact E | exact H].
Defined.

(** ** The reported figures (C6) *)

(** C6 (counterexample): `100 * bankrupt_count / total` is a float division
    and `round(x, 1)` works on the double x.  With 3 insolvent trials out of
    2000 the exact ratio is 0.15, whose rounding half to even is 0.2, but the
    program returns 0.1 (the double 100 * 3 / 2000 lies below 0.15).  With the
    single outcome 10^17 + 1, `int(sum(outcome) / total)` reports the average
    10^17, below the exact quotient 10^17 + 1. *)
Lemma odds_float_rounding :
  bankrupt_prob (repeat 0 1997 ++ repeat 1 3) 3 =
    Ok (mkReport (dbl (1 # 10)) 0 0 1) /\
  round_half_even (inject_Z (100 * 3) / inject_Z 2000 * 10) = 2 /\
  bankrupt_prob [10 ^ 17 + 1] 0 =
    Ok (mkReport 0%Q (10 ^ 17) (10 ^ 17 + 1) (10 ^ 17 + 1)) /\
  (10 ^ 17 + 1) / 1 = 10 ^ 17 + 1.
Proof. vm_compute. repeat split. Qed.

(** C6 (amended): for a non-empty outcome list with 0 <= bankrupt_count <=
    its length n (and outcomes of magnitude at most 2^1023), bankrupt_prob
    succeeds; the odds are the double x nearest 100 * bankrupt_count / n,
    times 10 rounded half to even, divided by 10 and rounded to a double;
    they lie in [0, 100] and within 0.05 + 2^-45 of the exact ratio.  The
    average is int() of the double nearest sum / n, which is
    floor(sum / n) when 0 <= sum < 2^53. *)
Theorem bankrupt_prob_stats (outcome : list Z) (bc : Z) :
  outcome <> [] -> 0 <= bc <= Z.of_nat (length outcome) ->
  (forall x, In x outcome -> Z.abs x <= 2 ^ 1023) ->
  exists rep x a,
    bankrupt_prob outcome bc = Ok rep /\
    round64 (inject_Z (100 * bc) / inject_Z (Z.of_nat (length outcome))) = Finite x /\
    round64 (inject_Z (round_half_even (x * 10)) / 10) = Finite (odds rep) /\
    (0 <= odds rep <= 100)%Q /\
    (inject_Z (100 * bc) / inject_Z (Z.of_nat (length outcome)) - (1 # 20) - pow2 (-45)
       <= odds rep <=
     inject_Z (100 * bc) / inject_Z (Z.of_nat (length outcome)) + (1 # 20) + pow2 (-45))%Q /\
    round64 (inject_Z (sum_Z outcome) / inject_Z (Z.of_nat (length outcome))) = Finite a /\
    average_outcome rep = trunc a /\
    (0 <= sum_Z outcome < 2 ^ 53 ->
     average_outcome rep = sum_Z outcome / Z.of_nat (length outcome)).
Proof.
  intros Hne Hbc Hx.
  destruct (bankrupt_prob_ok outcome bc Hne Hbc Hx) as [rep E].
  destruct (bankrupt_prob_inv _ _ _ E) as [x [a [Hn [Ex [Eo [Ea [Havg _]]]]]]].
  set (n := Z.of_nat (length outcome)) in *.
  destruct (odds_quotient bc n Hbc Hn) as [x' [Ex' [Rx [Hx100 Hxq]]]].
  rewrite Ex in Ex'. injection Ex' as <-.
  destruct (py_round1_range x Hx100) as [o [Eo' [Ho100 Hoq]]].
  rewrite Eo in Eo'. injection Eo' as <-.
  assert (P : pow2 (-45) == pow2 (-46) * 2).
  { change (-45) with (-46 + 1). rewrite pow2_add. reflexivity. }
  exists rep, x, a.
  split; [exact E | split; [exact Rx | split]].
  - unfold py_round1 in Eo.
    destruct (round64 (inject_Z (round_half_even (x * 10)) / 10)) as [y | | ];
      try discriminate. injection Eo as <-. reflexivity.
  - split; [exact Ho100 | split; [rewrite P; lra | split]].
    + apply py_truediv_pos; [exact Hn | exact Ea].
    + split; [exact Havg |]. intros Hs. rewrite Havg.
      apply (round_floor_div (sum_Z outcome) n a Hs Hn).
      apply py_truediv_pos; [exact Hn | exact Ea].
Qed.

Lemma bankrupt_prob_stats_witness :
  [3; 0; 7] <> [] /\ 0 <= 1 <= Z.of_nat (length [3; 0; 7]) /\
  (forall x, In x [3; 0; 7] -> Z.abs x <= 2 ^ 1023) /\
  exists rep x a,
    bankrupt_prob [3; 0; 7] 1 = Ok rep /\
    round64 (inject_Z (100 * 1) / inject_Z (Z.of_nat (length [3; 0; 7]))) = Finite x /\
    round64 (inject_Z (round_half_even (x * 10)) / 10) = Finite (odds rep) /\
    (0 <= odds rep <= 100)%Q /\
    (inject_Z (100 * 1) / inject_Z (Z.of_nat (length [3; 0; 7])) - (1 # 20) - pow2 (-45)
       <= odds rep <=
     inject_Z (100 * 1) / inject_Z (Z.of_nat (length [3; 0; 7])) + (1 # 20) + pow2 (-45))%Q /\
    round64 (inject_Z (sum_Z [3; 0; 7]) / inject_Z (Z.of_nat (length [3; 0; 7]))) = Finite a /\
    average_outcome rep = trunc a /\
    (0 <= sum_Z [3; 0; 7] < 2 ^ 53 ->
     average_outcome rep = sum_Z [3; 0; 7] / Z.of_nat (length [3; 0; 7])).
Proof.
  assert (H1 : [3; 0; 7] <> []) by discriminate.
  assert (H2 : 0 <= 1 <= Z.of_nat (length [3; 0; 7])) by (simpl; lia).
  assert (H3 : forall x, In x [3; 0; 7] -> Z.abs x <= 2 ^ 1023)
    by (intros x [<- | [<- | [<- | []]]]; vm_compute; discriminate).
  split; [exact H1 | split; [exact H2 | split; [exact H3 |]]].
  exact (bankrupt_prob_stats [3; 0; 7] 1 H1 H2 H3).
Defined.

(** ** Input check (C7) and trial count (C8) *)

(** C7 (code): the input check accepts exactly min < most_likely < max with
    max <= 99, so max_years = 99 is accepted, against the message
    "Requires Min < ML < Max with Max < 99" it prints; a run with
    max_years = 99 goes on to the simulation. *)
Theorem years_ok_accepts_99 :
  (forall p : params, years_ok p = true <->
     min_years p < most_likely_years p < max_years p /\ max_years p <= 99) /\
  years_ok (mkParams 2000000 80000 18 25 99 50000) = true /\
  exists rep,
    program (mkParams 2000000 80000 18 25 99 1) [0%Q] [0%Q]
            (fun _ => mkSample 0 (60 # 1)) = Ok rep.
Proof.
  split; [| split; [reflexivity | eexists; vm_compute; reflexivity]].
  intros p. unfold years_ok.
  rewrite negb_orb, negb_involutive, andb_true_iff, andb_true_iff,
          Z.ltb_lt, Z.ltb_lt, negb_true_iff, Z.gtb_ltb, Z.ltb_ge.
  lia.
Qed.

(** C8 (counterexample): num_cases = 0 passes the input check, montecarlo
    runs no trial, and bankrupt_prob divides by len(outcome) = 0; an empty
    return series raises ValueError in the first trial's start draw. *)
Lemma zero_cases_reach_aggregation :
  let p := mkParams 2000000 80000 18 25 40 0 in
  years_ok p = true /\
  montecarlo p [1 # 10] [0%Q] (fun _ => mkSample 0 (25 # 1)) = Ok ([], 0) /\
  bankrupt_prob [] 0 = Err ZeroDivisionError /\
  program p [1 # 10] [0%Q] (fun _ => mkSample 0 (25 # 1)) = Err ZeroDivisionError /\
  program (mkParams 2000000 80000 18 25 40 1) [] [0%Q] (fun _ => mkSample 0 (25 # 1)) =
    Err ValueError.
Proof. vm_compute. repeat split. Qed.

(** C8 (amended): the input check looks only at the years, so any trial
    count passes it; with num_cases = 0 montecarlo returns an empty outcome
    list and bankrupt_count 0, and the run then raises ZeroDivisionError in
    bankrupt_prob; with an empty return series and num_cases > 0 the first
    trial raises ValueError (randrange over an empty range). *)
Theorem unchecked_cases_and_series :
  (forall (p : params) (n : Z),
     years_ok p = years_ok (mkParams (start_value p) (withdrawal p) (min_years p)
                              (most_likely_years p) (max_years p) n)) /\
  (forall p (returns infl_rate : list Q) rng,
     num_cases p = 0 ->
     montecarlo p returns infl_rate rng = Ok ([], 0) /\
     (years_ok p = true -> program p returns infl_rate rng = Err ZeroDivisionError)) /\
  (forall p (infl_rate : list Q) rng,
     0 < num_cases p ->
     montecarlo p [] infl_rate rng = Err ValueError /\
     (years_ok p = true -> program p [] infl_rate rng = Err ValueError)).
Proof.
  split; [| split].
  - intros p n. reflexivity.
  - intros p R I rng Hn.
    assert (E : montecarlo p R I rng = Ok ([], 0))
      by (unfold montecarlo; rewrite Hn; reflexivity).
    split; [exact E |]. intros Hy. unfold program. rewrite Hy, E. reflexivity.
  - intros p I rng Hn.
    assert (E : montecarlo p [] I rng = Err ValueError).
    { unfold montecarlo. destruct (Z.to_nat (num_cases p)) eqn:Ht; [lia |]. reflexivity. }
    split; [exact E |]. intros Hy. unfold program. rewrite Hy, E. reflexivity.
Qed.

(** ** Trials without years and exceptions (C9) *)

(** C9 (counterexample): the start value 10^309 passes the input check
    (it is a digit string), and `investments * (1 + i)` converts it to a
    float, which raises OverflowError in the first year of the first trial. *)
Lemma huge_start_value_overflow :
  years_ok (mkParams (10 ^ 309) 80000 18 25 40 1) = true /\
  run_case (mkParams (10 ^ 309) 80000 18 25 40 1) [0%Q] [0%Q] (mkSample 0 (25 # 1)) =
    Err OverflowError /\
  program (mkParams (10 ^ 309) 80000 18 25 40 1) [0%Q] [0%Q] (fun _ => mkSample 0 (25 # 1)) =
    Err OverflowError.
Proof. vm_compute. repeat split. Qed.

(** C9 (amended): a trial of duration 0 builds empty lists without error,
    even from empty series; the year loop on no year returns the starting
    value, solvent; a trial of duration 0 ends solvent with value V0.  A
    trial raises no exception when the series are non-empty with rates in
    [-1, 1], it lasts at most 400 years and |V0|, |W0| <= 2^53. *)
Theorem zero_duration_trial :
  (forall (returns infl_rate : list Q) (s : Z),
     build_lists returns infl_rate (py_range s (s + 0)) [] [] = Ok ([], [])) /\
  (forall (W : Z) (li : list Q) (wadj V0 : Z), year_loop W li 0 wadj V0 [] = Ok (V0, false)) /\
  (forall p (returns infl_rate : list Q) smp,
     (0 < length returns)%nat -> duration_of smp = 0 ->
     run_case p returns infl_rate smp = Ok (start_value p, false)) /\
  (forall p (returns infl_rate : list Q) smp,
     (0 < length returns)%nat -> (0 < length infl_rate)%nat ->
     (forall q, In q returns -> (-1 <= q <= 1)%Q) ->
     (forall q, In q infl_rate -> (-1 <= q <= 1)%Q) ->
     duration_of smp <= 400 ->
     Z.abs (start_value p) <= 2 ^ 53 -> Z.abs (withdrawal p) <= 2 ^ 53 ->
     exists r, run_case p returns infl_rate smp = Ok r).
Proof.
  split; [| split; [| split]].
  - intros R I s. unfold py_range. rewrite Z.add_0_r, Z.sub_diag. reflexivity.
  - reflexivity.
  - intros p R I smp Hr Hd. unfold run_case, randrange0.
    replace (Z.of_nat (length R) <=? 0) with false by (symmetry; apply Z.leb_gt; lia).
    cbn [bind]. rewrite Hd. unfold py_range. rewrite Z.add_0_r, Z.sub_diag. reflexivity.
  - intros p R I smp Hr Hi Hrq Hiq Hd Hv HW.
    destruct (run_case_no_overflow p R I smp Hr Hi Hrq Hiq Hd Hv HW) as [r [Er _]].
    exists r. exact Er.
Qed.

(** ** Insolvency from the withdrawal alone (C10) *)

(** C10 (counterexample): with start value 0 and withdrawal 2^1024 (a digit
    string the input check accepts), the post-withdrawal balance is
    -2^1024 <= 0, but `investments * (1 + i)` raises OverflowError before the
    trial can be flagged insolvent. *)
Lemma overflow_hides_insolvency :
  year_loop (2 ^ 1024) [0%Q] 0 0 0 [0%Q] = Err OverflowError /\
  years_ok (mkParams 0 (2 ^ 1024) 18 25 40 1) = true /\
  run_case (mkParams 0 (2 ^ 1024) 18 25 40 1) [0%Q] [0%Q] (mkSample 0 (25 # 1)) =
    Err OverflowError.
Proof. vm_compute. repeat split. Qed.

(** C10 (amended): when the balance after a year's withdrawal is <= 0 and
    that year's return rate is >= -1, the year loop either flags the trial
    insolvent in that same year with a balance <= 0, or raises (the float
    conversion overflowing); it flags it insolvent whenever the
    post-withdrawal balance is at least -2^1022 and the rate at most 1. *)
Theorem withdrawal_insolvency_not_missed (W : Z) (lifespan_infl : list Q)
    (index : nat) (wadj investments w : Z) (r infl : Q) (rest : list Q) :
  py_getitem lifespan_infl (Z.of_nat index) = Ok infl ->
  next_withdrawal W index wadj infl = Ok w ->
  investments - w <= 0 -> (-1 <= r)%Q ->
  ((exists v, v <= 0 /\
      year_loop W lifespan_infl index wadj investments (r :: rest) = Ok (v, true)) \/
   year_loop W lifespan_infl index wadj investments (r :: rest) = Err OverflowError \/
   year_loop W lifespan_infl index wadj investments (r :: rest) = Err ValueError) /\
  (- 2 ^ 1022 <= investments - w -> (r <= 1)%Q ->
   exists v, v <= 0 /\
     year_loop W lifespan_infl index wadj investments (r :: rest) = Ok (v, true)).
Proof.
  intros Hi Hw Hn Hr. cbn [year_loop]. rewrite Hi. cbn [bind]. rewrite Hw. cbn [bind].
  split.
  - destruct (int_mul_1p_nonpos (investments - w) r Hn Hr)
      as [[v [Ev Hv]] | [Eo | Eo]]; rewrite ?Ev, ?Eo.
    + left. exists v. split; [exact Hv |]. cbn [bind].
      apply Z.leb_le in Hv. rewrite Hv. reflexivity.
    + right. left. reflexivity.
    + right. right. reflexivity.
  - intros Hlo Hr1.
    assert (Hj : 0 <= 1022 <= 1022) by lia.
    destruct (int_mul_1p_bound (investments - w) r 1022 Hj ltac:(lia) (conj Hr Hr1))
      as [x [y [z [_ [_ [_ [E [_ [_ Hneg]]]]]]]]].
    rewrite E. cbn [bind]. exists (trunc z). split; [exact (Hneg Hn) |].
    pose proof (Hneg Hn) as Hz. apply Z.leb_le in Hz. rewrite Hz. reflexivity.
Qed.

Lemma withdrawal_insolvency_not_missed_witness :
  exists v, v <= 0 /\ year_loop 150 [0%Q] 0 0 100 [0%Q] = Ok (v, true).
Proof.
  apply (proj2 (withdrawal_insolvency_not_missed 150 [0%Q] 0 0 100 150 0 0 []
                  eq_refl eq_refl ltac:(lia) ltac:(vm_compute; discriminate)));
    [vm_compute; discriminate | vm_compute; discriminate].
Defined.

(** * Further properties of the program *)

(** X1: with every return and inflation rate >= -1, a trial that is solvent
    with start value V0 and withdrawal W0, run with a start value >= V0 and
    a withdrawal <= W0 (same series, same random draws), is solvent with a
    final value at least as large, or raises OverflowError in a float
    conversion; it cannot raise when the rates are also <= 1, the trial lasts
    at most 400 years and the new |V0|, |W0| are at most 2^53. *)
Theorem run_case_monotone (p p' : params) (returns infl_rate : list Q) (s : sample) (b : Z) :
  start_value p <= start_value p' -> withdrawal p' <= withdrawal p ->
  (forall x, In x returns -> (-1 <= x)%Q) -> (forall x, In x infl_rate -> (-1 <= x)%Q) ->
  run_case p returns infl_rate s = Ok (b, false) ->
  ((exists b', run_case p' returns infl_rate s = Ok (b', false) /\ b <= b') \/
   run_case p' returns infl_rate s = Err OverflowError) /\
  ((0 < length infl_rate)%nat ->
   (forall x, In x returns -> (x <= 1)%Q) -> (forall x, In x infl_rate -> (x <= 1)%Q) ->
   duration_of s <= 400 ->
   Z.abs (start_value p') <= 2 ^ 53 -> Z.abs (withdrawal p') <= 2 ^ 53 ->
   exists b', run_case p' returns infl_rate s = Ok (b', false) /\ b <= b').
Proof.
  intros Hv Hw Hr Hi E.
  assert (D : (exists b', run_case p' returns infl_rate s = Ok (b', false) /\ b <= b') \/
              run_case p' returns infl_rate s = Err OverflowError).
  { unfold run_case in E |- *.
    destruct (randrange0 _ _) as [sy |]; [| discriminate]. cbn [bind] in E |- *.
    destruct (build_lists _ _ _ [] []) as [[lr li] |] eqn:Eb; [| discriminate].
    cbn [bind fst snd] in E |- *.
    destruct (build_lists_in _ _ _ _ _ _ _ Eb) as [H1 H2].
    apply (year_loop_mono _ _ li lr Hw) with (wadj := 0) (inv := start_value p);
      [| | lia | exact Hv | exact E].
    - intros x Hx. destruct (H1 x Hx) as [[] | H]. auto.
    - intros x Hx. destruct (H2 x Hx) as [[] | H]. auto. }
  split; [exact D |].
  intros Hi0 Hr1 Hi1 Hd HV' HW'.
  assert (Hr0 : (0 < length returns)%nat).
  { destruct returns; [| simpl; lia]. discriminate E. }
  destruct (run_case_no_overflow p' returns infl_rate s Hr0 Hi0
              (fun q Hq => conj (Hr q Hq) (Hr1 q Hq))
              (fun q Hq => conj (Hi q Hq) (Hi1 q Hq)) Hd HV' HW') as [r' [E' _]].
  destruct D as [D | D]; [exact D | congruence].
Qed.

Lemma run_case_monotone_witness :
  start_value example_params <= 3000000 /\ 60000 <= withdrawal example_params /\
  (forall x, In x [1 # 10; (-1) # 10; 2 # 10] -> (-1 <= x)%Q) /\
  (forall x, In x [1 # 50] -> (-1 <= x)%Q) /\
  run_case example_params [1 # 10; (-1) # 10; 2 # 10] [1 # 50] (mkSample 0 (20 # 1))
    = Ok (2291891, false) /\
  exists b', run_case (mkParams 3000000 60000 18 25 40 50000)
               [1 # 10; (-1) # 10; 2 # 10] [1 # 50] (mkSample 0 (20 # 1)) = Ok (b', false) /\
             2291891 <= b'.
Proof.
  assert (Hr : forall x, In x [1 # 10; (-1) # 10; 2 # 10] -> (-1 <= x)%Q).
  { intros x [<- | [<- | [<- | []]]]; vm_compute; discriminate. }
  assert (Hi : forall x, In x [1 # 50] -> (-1 <= x)%Q).
  { intros x [<- | []]; vm_compute; discriminate. }
  assert (Hr1 : forall x, In x [1 # 10; (-1) # 10; 2 # 10] -> (x <= 1)%Q).
  { intros x [<- | [<- | [<- | []]]]; vm_compute; discriminate. }
  assert (Hi1 : forall x, In x [1 # 50] -> (x <= 1)%Q).
  { intros x [<- | []]; vm_compute; discriminate. }
  assert (E : run_case example_params [1 # 10; (-1) # 10; 2 # 10] [1 # 50]
                (mkSample 0 (20 # 1)) = Ok (2291891, false)) by (vm_compute; reflexivity).
  split; [vm_compute; discriminate | split; [vm_compute; discriminate |]].
  split; [exact Hr | split; [exact Hi | split; [exact E |]]].
  apply (proj2 (run_case_monotone example_params (mkParams 3000000 60000 18 25 40 50000)
           _ _ _ _ ltac:(vm_compute; discriminate) ltac:(vm_compute; discriminate) Hr Hi E));
    [simpl; lia | exact Hr1 | exact Hi1 | vm_compute; discriminate
    | vm_compute; discriminate | vm_compute; discriminate].
Defined.

(** X2: with non-empty series, a trial that goes bankrupt stays bankrupt,
    with the same value, when the same start year is drawn with a duration
    at least as long: the later years are never reached. *)
Theorem longer_retirement_no_rescue (p : params) (returns infl_rate : list Q)
    (s s' : sample) (v : Z) :
  (0 < length returns)%nat -> (0 < length infl_rate)%nat ->
  raw_start s' = raw_start s -> duration_of s <= duration_of s' ->
  run_case p returns infl_rate s = Ok (v, true) ->
  run_case p returns infl_rate s' = Ok (v, true).
Proof.
  intros Hr Hi Hs Hd E. unfold run_case, randrange0 in E |- *.
  replace (Z.of_nat (length returns) <=? 0) with false in E |- *
    by (symmetry; apply Z.leb_gt; lia).
  rewrite Hs. cbn [bind] in E |- *.
  rewrite build_lists_ok in E |- * by assumption. cbn [bind fst snd app] in E |- *.
  set (sy := raw_start s mod Z.of_nat (length returns)) in *.
  destruct (Z_le_gt_dec (duration_of s) 0) as [Hn | Hp].
  - unfold py_range in E. replace (Z.to_nat (sy + duration_of s - sy)) with 0%nat in E by lia.
    discriminate.
  - rewrite (py_range_split sy (duration_of s) (duration_of s')) by lia.
    rewrite !map_app. apply year_loop_app_insolvent. exact E.
Qed.

Lemma longer_retirement_no_rescue_witness :
  (0 < length [1 # 10; (-1) # 10; 2 # 10])%nat /\ (0 < length [1 # 50])%nat /\
  raw_start (mkSample 0 (30 # 1)) = raw_start (mkSample 0 (20 # 1)) /\
  duration_of (mkSample 0 (20 # 1)) <= duration_of (mkSample 0 (30 # 1)) /\
  run_case (mkParams 1000000 80000 18 25 40 1) [1 # 10; (-1) # 10; 2 # 10] [1 # 50]
    (mkSample 0 (20 # 1)) = Ok (-21293, true) /\
  run_case (mkParams 1000000 80000 18 25 40 1) [1 # 10; (-1) # 10; 2 # 10] [1 # 50]
    (mkSample 0 (30 # 1)) = Ok (-21293, true).
Proof.
  assert (E : run_case (mkParams 1000000 80000 18 25 40 1) [1 # 10; (-1) # 10; 2 # 10]
                [1 # 50] (mkSample 0 (20 # 1)) = Ok (-21293, true)) by (vm_compute; reflexivity).
  split; [simpl; lia | split; [simpl; lia | split; [reflexivity | split; [vm_compute; discriminate |]]]].
  split; [exact E |].
  apply (longer_retirement_no_rescue _ _ _ (mkSample 0 (20 # 1)));
    [simpl; lia | simpl; lia | reflexivity | vm_compute; discriminate | exact E].
Defined.

(** X3: when every return and inflation rate is 0, a trial of d >= 0 years
    with start value 0 < V0 <= 2^53 and withdrawal 0 < W <= 2^53 withdraws W
    every year: it ends solvent at V0 - d*W when d*W < V0, and otherwise goes
    bankrupt in year ceil(V0 / W) with balance V0 - ceil(V0 / W) * W. *)
Theorem zero_rate_trial (p : params) (returns infl_rate : list Q) (s : sample) :
  (0 < length returns)%nat -> (0 < length infl_rate)%nat ->
  (forall x, In x returns -> x = 0%Q) -> (forall x, In x infl_rate -> x = 0%Q) ->
  0 < start_value p <= 2 ^ 53 -> 0 < withdrawal p <= 2 ^ 53 -> 0 <= duration_of s ->
  run_case p returns infl_rate s =
    if duration_of s * withdrawal p <? start_value p
    then Ok (start_value p - duration_of s * withdrawal p, false)
    else Ok (start_value p
             - ((start_value p + withdrawal p - 1) / withdrawal p) * withdrawal p, true).
Proof.
  intros Hr Hi Hr0 Hi0 Hv HW Hd.
  destruct (run_case_year_loop p returns infl_rate s Hr Hi) as [sy [Hsy ->]].
  rewrite year_loop_zero_rates; [| exact HW | | | left; reflexivity | exact Hv |].
  - rewrite length_map, length_py_range, Z2Nat.id by exact Hd. reflexivity.
  - intros x Hx. apply in_map_iff in Hx as [i [<- _]]. unfold wrap_item.
    apply Hr0, nth_In. pose proof (Z.mod_pos_bound i (Z.of_nat (length returns))). lia.
  - intros x Hx. apply in_map_iff in Hx as [i [<- _]]. unfold wrap_item.
    apply Hi0, nth_In. pose proof (Z.mod_pos_bound i (Z.of_nat (length infl_rate))). lia.
  - rewrite !length_map. lia.
Qed.

Lemma zero_rate_trial_witness :
  (0 < length [0%Q; 0%Q])%nat /\ (0 < length [0%Q])%nat /\
  (forall x, In x [0%Q; 0%Q] -> x = 0%Q) /\ (forall x, In x [0%Q] -> x = 0%Q) /\
  0 < start_value (mkParams 100 150 0 1 2 1) <= 2 ^ 53 /\
  0 < withdrawal (mkParams 100 150 0 1 2 1) <= 2 ^ 53 /\
  0 <= duration_of (mkSample 1 (3 # 1)) /\
  run_case (mkParams 100 150 0 1 2 1) [0%Q; 0%Q] [0%Q] (mkSample 1 (3 # 1)) = Ok (-50, true).
Proof.
  assert (Hr : forall x, In x [0%Q; 0%Q] -> x = 0%Q) by (intros x [<- | [<- | []]]; reflexivity).
  assert (Hi : forall x, In x [0%Q] -> x = 0%Q) by (intros x [<- | []]; reflexivity).
  assert (Hv : 0 < start_value (mkParams 100 150 0 1 2 1) <= 2 ^ 53)
    by (split; vm_compute; [reflexivity | discriminate]).
  assert (HW : 0 < withdrawal (mkParams 100 150 0 1 2 1) <= 2 ^ 53)
    by (split; vm_compute; [reflexivity | discriminate]).
  do 7 (split; [first [exact Hr | exact Hi | exact Hv | exact HW | simpl; lia
                      | vm_compute; discriminate | reflexivity] |]).
  rewrite (zero_rate_trial (mkParams 100 150 0 1 2 1) [0%Q; 0%Q] [0%Q] (mkSample 1 (3 # 1)));
    [reflexivity | simpl; lia | simpl; lia | exact Hr | exact Hi | exact Hv | exact HW
    | vm_compute; discriminate].
Defined.

(** X4: for at most 2^53 trials, the odds are returned as 0.0 whenever fewer
    than one trial in 2000 went bankrupt (even if some did), and as 100.0
    whenever fewer than one trial in 2000 survived (even if some did). *)
Theorem odds_round_to_extremes (outcome : list Z) (bc : Z) (rep : report) :
  bankrupt_prob outcome bc = Ok rep -> 0 <= bc <= Z.of_nat (length outcome) ->
  Z.of_nat (length outcome) <= 2 ^ 53 ->
  (2000 * bc < Z.of_nat (length outcome) -> odds rep == 0) /\
  (2000 * (Z.of_nat (length outcome) - bc) < Z.of_nat (length outcome) -> odds rep == 100).
Proof.
  intros E Hbc Hn53.
  destruct (bankrupt_prob_inv _ _ _ E) as [x [a [Hn [Ex [Eo _]]]]].
  set (n := Z.of_nat (length outcome)) in *.
  destruct (odds_quotient bc n Hbc Hn) as [x' [Ex' [Rq [Hx _]]]].
  rewrite Ex in Ex'. injection Ex' as <-.
  replace (2 ^ 53) with 9007199254740992 in Hn53 by reflexivity.
  assert (HnQ : (0 < inject_Z n)%Q) by (apply (proj1 (Zlt_Q 0 n)); exact Hn).
  assert (Hn53Q : (inject_Z n <= 9007199254740992)%Q) by (unfold Qle; cbn -[Z.mul]; lia).
  unfold py_round1 in Eo.
  pose proof (round_half_even_bounds (x * 10)) as B.
  set (k := round_half_even (x * 10)) in *.
  split; intros H.
  - assert (HT : (inject_Z (100 * bc) / inject_Z n
                  <= (1 # 20) - (1 # 180143985094819840))%Q).
    { apply Qle_shift_div_r; [exact HnQ |].
      assert (inject_Z (100 * bc) * 20 <= inject_Z n - 1)%Q by (unfold Qle; cbn -[Z.mul]; lia).
      lra. }
    assert (Ht : round64 ((1 # 20) - (1 # 180143985094819840)) =
                 Finite (7205759403792793 # 144115188075855872)) by (vm_compute; reflexivity).
    pose proof (round64_mono _ _ _ _ HT Rq Ht) as Hxt.
    assert (Hk : k = 0).
    { assert ((7205759403792793 # 144115188075855872) * 10 < 1 # 2)%Q
        by (vm_compute; reflexivity).
      assert (Hk1 : (inject_Z k < inject_Z 1)%Q) by (change (inject_Z 1) with 1%Q; lra).
      assert (Hk0 : (inject_Z (-1) < inject_Z k)%Q) by (change (inject_Z (-1)) with (-1)%Q; lra).
      apply (proj2 (Zlt_Q _ _)) in Hk1. apply (proj2 (Zlt_Q _ _)) in Hk0. lia. }
    rewrite Hk in Eo.
    assert (R0 : round64 (inject_Z 0 / 10) = Finite 0) by (vm_compute; reflexivity).
    rewrite R0 in Eo. injection Eo as <-. reflexivity.
  - assert (HT : ((1999 # 20) + (1 # 180143985094819840)
                  <= inject_Z (100 * bc) / inject_Z n)%Q).
    { apply Qle_shift_div_l; [exact HnQ |].
      assert (1999 * inject_Z n + 1 <= inject_Z (100 * bc) * 20)%Q
        by (unfold Qle; cbn -[Z.mul]; lia).
      lra. }
    assert (Ht : round64 ((1999 # 20) + (1 # 180143985094819840)) =
                 Finite (7033355980557517 # 70368744177664)) by (vm_compute; reflexivity).
    pose proof (round64_mono _ _ _ _ HT Ht Rq) as Hxt.
    assert (Hk : k = 1000).
    { assert (1999 # 2 < (7033355980557517 # 70368744177664) * 10)%Q
        by (vm_compute; reflexivity).
      assert (Hk1 : (inject_Z k < inject_Z 1001)%Q)
        by (change (inject_Z 1001) with 1001%Q; lra).
      assert (Hk0 : (inject_Z 999 < inject_Z k)%Q) by (change (inject_Z 999) with 999%Q; lra).
      apply (proj2 (Zlt_Q _ _)) in Hk1. apply (proj2 (Zlt_Q _ _)) in Hk0. lia. }
    rewrite Hk in Eo.
    assert (R0 : round64 (inject_Z 1000 / 10) = Finite 100) by (vm_compute; reflexivity).
    rewrite R0 in Eo. injection Eo as <-. reflexivity.
Qed.

Lemma odds_round_to_extremes_witness :
  exists rep,
    (bankrupt_prob (repeat 5 2000 ++ [0]) 1 = Ok rep) /\
    (0 <= 1 <= Z.of_nat (length (repeat 5 2000 ++ [0]))) /\
    (Z.of_nat (length (repeat 5 2000 ++ [0])) <= 2 ^ 53) /\
    (2000 * 1 < Z.of_nat (length (repeat 5 2000 ++ [0]))) /\ (odds rep == 0).
Proof.
  destruct (bankrupt_prob (repeat 5 2000 ++ [0]) 1) as [rep | e] eqn:E;
    [| vm_compute in E; discriminate].
  assert (H1 : 0 <= 1 <= Z.of_nat (length (repeat 5 2000 ++ [0])))
    by (vm_compute; split; discriminate).
  assert (H2 : Z.of_nat (length (repeat 5 2000 ++ [0])) <= 2 ^ 53)
    by (vm_compute; discriminate).
  assert (H3 : 2000 * 1 < Z.of_nat (length (repeat 5 2000 ++ [0]))) by (vm_compute; reflexivity).
  exists rep. split; [reflexivity | split; [exact H1 | split; [exact H2 | split; [exact H3 |]]]].
  exact (proj1 (odds_round_to_extremes _ _ _ E H1 H2) H3).
Defined.

(** X5: on any outcome list it accepts, bankrupt_prob reports as minimum
    and maximum an element of the list below, resp. above, every element;
    when every outcome has magnitude at most 2^53 the reported average lies
    between the two. *)
Theorem report_min_avg_max (outcome : list Z) (bc : Z) (rep : report) :
  bankrupt_prob outcome bc = Ok rep ->
  In (minimum_outcome rep) outcome /\ (forall x, In x outcome -> minimum_outcome rep <= x) /\
  In (maximum_outcome rep) outcome /\ (forall x, In x outcome -> x <= maximum_outcome rep) /\
  ((forall x, In x outcome -> Z.abs x <= 2 ^ 53) ->
   minimum_outcome rep <= average_outcome rep <= maximum_outcome rep).
Proof.
  intros E. destruct (report_min_max _ _ _ E) as [Imin [Lmin [Imax Lmax]]].
  split; [exact Imin | split; [exact Lmin | split; [exact Imax | split; [exact Lmax |]]]].
  intros Hb.
  destruct (bankrupt_prob_inv _ _ _ E) as [x [a [Hn [_ [_ [Ea [Havg _]]]]]]].
  rewrite Havg.
  apply (average_between outcome); [destruct outcome; [destruct Imin | discriminate]
    | apply Hb, Imin | apply Hb, Imax | intros y Hy; split; auto | exact Ea].
Qed.

Lemma report_min_avg_max_witness :
  exists rep, bankrupt_prob [3; 0; 7] 1 = Ok rep /\
    (In (minimum_outcome rep) [3; 0; 7] /\ (forall x, In x [3; 0; 7] -> minimum_outcome rep <= x) /\
     In (maximum_outcome rep) [3; 0; 7] /\ (forall x, In x [3; 0; 7] -> x <= maximum_outcome rep) /\
     ((forall x, In x [3; 0; 7] -> Z.abs x <= 2 ^ 53) ->
      minimum_outcome rep <= average_outcome rep <= maximum_outcome rep)).
Proof.
  assert (E : bankrupt_prob [3; 0; 7] 1 =
              Ok (mkReport (2343279181116211 # 70368744177664) 3 0 7))
    by (vm_compute; reflexivity).
  exists (mkReport (2343279181116211 # 70368744177664) 3 0 7).
  split; [exact E |]. exact (report_min_avg_max _ _ _ E).
Defined.

(** X6: with a start value in (0, 2^53], |withdrawal| <= 2^53, at least one
    trial, non-empty series with rates in [-1, 1] and trials of at most 400
    years, montecarlo and bankrupt_prob both succeed; the reported minimum
    outcome is >= 0, and it is 0 exactly when some trial went bankrupt. *)
Theorem minimum_zero_iff_bankrupt (p : params) (returns infl_rate : list Q)
    (rng : nat -> sample) :
  0 < start_value p <= 2 ^ 53 -> Z.abs (withdrawal p) <= 2 ^ 53 -> 0 < num_cases p ->
  (0 < length returns)%nat -> (0 < length infl_rate)%nat ->
  (forall q, In q returns -> (-1 <= q <= 1)%Q) ->
  (forall q, In q infl_rate -> (-1 <= q <= 1)%Q) ->
  (forall k, duration_of (rng k) <= 400) ->
  exists outcome bankrupt_count rep,
    montecarlo p returns infl_rate rng = Ok (outcome, bankrupt_count) /\
    bankrupt_prob outcome bankrupt_count = Ok rep /\
    0 <= minimum_outcome rep /\
    (minimum_outcome rep = 0 <-> 0 < bankrupt_count).
Proof.
  intros Hv HW Hn Hr Hi Hrq Hiq Hd.
  assert (Hv' : Z.abs (start_value p) <= 2 ^ 53) by lia.
  assert (Hall : forall j, exists r, run_case p returns infl_rate (rng j) = Ok r /\
                                     Z.abs (fst r) <= 2 ^ 854)
    by (intros j; apply run_case_no_overflow; auto).
  unfold montecarlo.
  destruct (mc_loop_ok p returns infl_rate rng (Z.to_nat (num_cases p)) 0 [] 0) as [out [bc E]].
  { intros j _. destruct (Hall (0 + j)%nat) as [r [Er _]]. exists r. exact Er. }
  destruct (mc_loop_inv p returns infl_rate rng _ _ _ _ _ _ E) as [rs [Hlen [Hrs [Ho Hb]]]].
  simpl app in Ho. rewrite Z.add_0_l in Hb. subst out bc.
  assert (Hne : map recorded rs <> []) by (destruct rs; [simpl in Hlen; lia | discriminate]).
  pose proof (count_insolvent_le rs) as Hbc.
  assert (P1 : 0 <= 2 ^ 854) by (apply Z.pow_nonneg; lia).
  assert (P2 : 2 ^ 854 <= 2 ^ 1023) by (apply Z.pow_le_mono_r; lia).
  assert (Hbound : forall x, In x (map recorded rs) -> 0 <= x /\ Z.abs x <= 2 ^ 1023).
  { intros x Hx. apply in_map_iff in Hx as [r [<- Hin]].
    apply In_nth_error in Hin as [j Hj].
    pose proof (Hrs j r Hj) as Er.
    destruct (Hall (0 + j)%nat) as [r' [Er' Hr']]. rewrite Er in Er'. injection Er' as <-.
    pose proof (recorded_nonneg p returns infl_rate _ r ltac:(lia) Er) as Hnn.
    split; [exact Hnn |].
    unfold recorded in *. destruct (snd r); lia. }
  destruct (bankrupt_prob_ok (map recorded rs) (count_insolvent rs) Hne) as [rep Hrep].
  { rewrite length_map. exact Hbc. }
  { intros x Hx. apply Hbound, Hx. }
  destruct (report_min_max _ _ _ Hrep) as [Hin [Hle _]].
  exists (map recorded rs), (count_insolvent rs), rep.
  split; [exact E | split; [exact Hrep |]].
  split; [apply Hbound; exact Hin |].
  rewrite <- (count_zeros_recorded p returns infl_rate rng 0 rs ltac:(lia) Hrs), count_zeros_pos.
  split.
  - intros H0. rewrite <- H0. exact Hin.
  - intros H0. pose proof (Hle 0 H0). pose proof (proj1 (Hbound _ Hin)). lia.
Qed.

Lemma minimum_zero_iff_bankrupt_witness :
  exists outcome bankrupt_count rep,
    montecarlo (mkParams 2000000 80000 18 25 40 3) [1 # 10; (-1) # 10; 2 # 10] [1 # 50]
      (fun k => mkSample (Z.of_nat k) (35 # 1)) = Ok (outcome, bankrupt_count) /\
    bankrupt_prob outcome bankrupt_count = Ok rep /\
    0 <= minimum_outcome rep /\
    (minimum_outcome rep = 0 <-> 0 < bankrupt_count).
Proof.
  apply minimum_zero_iff_bankrupt;
    [split; vm_compute; [reflexivity | discriminate] | vm_compute; discriminate
    | reflexivity | simpl; lia | simpl; lia
    | intros q [<- | [<- | [<- | []]]]; split; vm_compute; discriminate
    | intros q [<- | []]; split; vm_compute; discriminate
    | intros k; vm_compute; discriminate].
Defined.

(** X7. An answer that gets past one of the `isdigit` re-prompt loops of the
    numeric questions passes `str.isdigit`, and `int` (called on it in the
    years check and in [montecarlo]) then behaves as follows: if every
    character is a decimal digit and there are no more of them than the
    interpreter's limit on integer string conversion (none when it is <= 0,
    4300 by default since Python 3.11), it returns the number they denote,
    which is non-negative; with more digits than a positive limit it raises
    ValueError; if some character is a digit that is not decimal (as the
    superscript digits are), it raises ValueError.  The assumptions are
    facts of the Unicode database: decimal values are non-negative, and a
    digit character is neither white space nor one of + - _. *)
Theorem digit_answer_int (u : unicode_db) (max_str_digits : Z) (default : option str)
    (first x : str) (later : list str)
    (Hdec : forall c v, decimal_value u c = Some v -> 0 <= v)
    (Hdig : forall c, is_digit_char u c = true ->
            is_space_char u c = false /\ c <> 43 /\ c <> 45 /\ c <> 95)
    (Hloop : digit_loop u (default_input default first) later = Some x) :
  py_isdigit u x = true /\
  ((forall c, In c x -> decimal_value u c <> None) ->
   (max_str_digits <= 0 \/ Z.of_nat (length x) <= max_str_digits) ->
   py_int u max_str_digits x = Ok (decimal_number u x) /\ 0 <= decimal_number u x) /\
  ((forall c, In c x -> decimal_value u c <> None) ->
   0 < max_str_digits < Z.of_nat (length x) ->
   py_int u max_str_digits x = Err ValueError) /\
  ((exists c, In c x /\ decimal_value u c = None) ->
   py_int u max_str_digits x = Err ValueError).
Proof.
  pose proof (digit_loop_isdigit u later _ _ Hloop) as Hx.
  split; [exact Hx |].
  destruct (py_isdigit_chars u x Hx) as [Hne Hchars].
  assert (Hstrip : py_strip u x = x).
  { apply py_strip_id. intros c Hc. apply (Hdig c (Hchars c Hc)). }
  destruct x as [|c0 r0]; [congruence |].
  destruct (Hdig c0 (Hchars c0 (or_introl eq_refl))) as [_ [H43 [H45 _]]].
  rewrite (py_int_unsigned u max_str_digits c0 r0 Hstrip H45 H43).
  split; [| split].
  - intros Hall Hlim. rewrite (parse_digits_decimal u _ 0 true Hall (or_introl Hne)).
    rewrite (count_digits_decimal u _ Hall).
    replace ((0 <? max_str_digits) && (max_str_digits <? Z.of_nat (length (c0 :: r0))))
      with false
      by (symmetry; apply andb_false_iff;
          destruct Hlim; [left; apply Z.ltb_ge | right; apply Z.ltb_ge]; lia).
    split; [reflexivity |]. apply decimal_number_nonneg; [exact Hdec | lia].
  - intros Hall Hlim. rewrite (parse_digits_decimal u _ 0 true Hall (or_introl Hne)).
    rewrite (count_digits_decimal u _ Hall).
    replace ((0 <? max_str_digits) && (max_str_digits <? Z.of_nat (length (c0 :: r0))))
      with true
      by (symmetry; apply andb_true_iff; split; apply Z.ltb_lt; lia).
    reflexivity.
  - intros Hbad. rewrite parse_digits_non_decimal; [reflexivity | | exact Hbad].
    intros c Hc. apply (Hdig c (Hchars c Hc)).
Qed.

Lemma digit_answer_int_witness :
  (forall c v, decimal_value latin1_db c = Some v -> 0 <= v) /\
  (forall c, is_digit_char latin1_db c = true ->
   is_space_char latin1_db c = false /\ c <> 43 /\ c <> 45 /\ c <> 95) /\
  digit_loop latin1_db (default_input (Some (py_str "2000000"%string)) [178]) [] = Some [178] /\
  (py_isdigit latin1_db [178] = true /\
   ((forall c, In c [178] -> decimal_value latin1_db c <> None) ->
    (4300 <= 0 \/ Z.of_nat (length [178]) <= 4300) ->
    py_int latin1_db 4300 [178] = Ok (decimal_number latin1_db [178]) /\
    0 <= decimal_number latin1_db [178]) /\
   ((forall c, In c [178] -> decimal_value latin1_db c <> None) ->
    0 < 4300 < Z.of_nat (length [178]) ->
    py_int latin1_db 4300 [178] = Err ValueError) /\
   ((exists c, In c [178] /\ decimal_value latin1_db c = None) ->
    py_int latin1_db 4300 [178] = Err ValueError)).
Proof.
  assert (Hdec : forall c v, decimal_value latin1_db c = Some v -> 0 <= v).
  { intros c v H. simpl in H.
    destruct ((48 <=? c) && (c <=? 57)) eqn:E; [| discriminate].
    injection H as <-. apply andb_prop in E as [E1 E2].
    apply Z.leb_le in E1. lia. }
  assert (Hdig : forall c, is_digit_char latin1_db c = true ->
                 is_space_char latin1_db c = false /\ c <> 43 /\ c <> 45 /\ c <> 95).
  { intros c H. simpl in H. apply orb_true_iff in H as [H | H].
    - apply andb_prop in H as [E1 E2]. apply Z.leb_le in E1. apply Z.leb_le in E2.
      assert (c = 48 \/ c = 49 \/ c = 50 \/ c = 51 \/ c = 52 \/ c = 53 \/ c = 54 \/
              c = 55 \/ c = 56 \/ c = 57) as Hc by lia.
      repeat destruct Hc as [-> | Hc]; subst; (split; [reflexivity | lia]).
    - repeat (apply orb_true_iff in H as [H | H]; [apply Z.eqb_eq in H; subst;
        split; [reflexivity | lia] |]).
      discriminate. }
  split; [exact Hdec | split; [exact Hdig | split; [reflexivity |]]].
  apply (digit_answer_int latin1_db 4300 (Some (py_str "2000000"%string)) [178] [178] []
           Hdec Hdig).
  reflexivity.
Defined.

(** X8. Whatever the user answers to the investment-type question, once the
    re-prompt loop exits the answer is a key of [investment_type_args], so
    the lookup `investment_type_args[invest_type]` in `main` returns one of
    the four return series and never raises KeyError; pressing ENTER at the
    first prompt selects the bond returns. *)
Theorem invest_type_lookup (bonds stocks blend_50_50 blend_40_50_10 : list Q)
    (first t : str) (later : list str)
    (Hloop : type_loop (investment_type_args bonds stocks blend_50_50 blend_40_50_10)
               (default_input (Some (py_str "bonds"%string)) first) later = Some t) :
  (exists series,
     dict_get (investment_type_args bonds stocks blend_50_50 blend_40_50_10) t = Some series /\
     In series [bonds; stocks; blend_50_50; blend_40_50_10]) /\
  (first = [] -> t = py_str "bonds"%string /\
   dict_get (investment_type_args bonds stocks blend_50_50 blend_40_50_10) t = Some bonds).
Proof.
  split.
  - destruct (dict_get_mem _ t (type_loop_mem _ later _ t Hloop)) as [v [Hv Hin]].
    exists v. split; [exact Hv |].
    simpl in Hin.
    repeat (destruct Hin as [Hin | Hin]; [injection Hin as _ <-; simpl; tauto |]).
    destruct Hin.
  - intros ->. destruct later; simpl in Hloop; injection Hloop as <-;
      split; reflexivity.
Qed.

Lemma invest_type_lookup_witness :
  type_loop (investment_type_args [1 # 20] [1 # 10] [3 # 40] [13 # 200])
    (default_input (Some (py_str "bonds"%string)) (py_str "Stocks"%string))
    [py_str "stocks"%string] = Some (py_str "stocks"%string) /\
  ((exists series,
     dict_get (investment_type_args [1 # 20] [1 # 10] [3 # 40] [13 # 200])
       (py_str "stocks"%string) = Some series /\
     In series [[1 # 20]; [1 # 10]; [3 # 40]; [13 # 200]]) /\
   (py_str "Stocks"%string = [] -> py_str "stocks"%string = py_str "bonds"%string /\
    dict_get (investment_type_args [1 # 20] [1 # 10] [3 # 40] [13 # 200])
      (py_str "stocks"%string) = Some [1 # 20])).
Proof.
  split; [reflexivity |].
  apply (invest_type_lookup [1 # 20] [1 # 10] [3 # 40] [13 # 200]
           (py_str "Stocks"%string) (py_str "stocks"%string) [py_str "stocks"%string]).
  reflexivity.
Defined.
